(** * tfsdklog: scoped SDK logging with omission and masking policies

    A shallow embedding of [tfsdklog/sdk.go] (terraform-plugin-log) and of the
    collaborators it calls: the context carrier, the [hclog] logger, the
    [logging] registry and policy store, and the [hclogutils] helpers.

    Go pointers to [hclog.LoggerOptions] are locations of an explicit heap;
    writes to the log sink are appended to an explicit list of records.  Both
    are threaded by a small state monad. *)

From Stdlib Require Import ZArith Ascii.
From stdpp Require Import base option list strings gmap fin_maps.

Local Open Scope Z_scope.
Local Open Scope nat_scope.

(** ** Text as a sequence of characters *)

Abbreviation text := (list ascii).
Abbreviation chars := String.list_ascii_of_string.
Abbreviation of_chars := String.string_of_list_ascii.

(** The fixed redaction token. *)
Definition MaskToken : string := "***".

(** ** Left-to-right replacement of matched spans

    Modelled from the spec: the match engine is missing from the sources;
    masking replaces "every non-overlapping matched span", which is a scan of
    the text from left to right.

    [span t] is the length of the span matched at the head of [t], if any.
    [skip] counts the characters of the current span still to be dropped;
    [adj] tells that a span ended exactly at the current position, where an
    empty span is not replaced a second time. *)
Module scanner.

Section Scan.
Variable span : text → option nat.
Variable repl : text.

Fixpoint scan (skip : nat) (adj : bool) (t : text) : text :=
  match skip with
  | S k =>
      match t with
      | [] => []
      | _ :: t' => scan k true t'
      end
  | O =>
      match span t with
      | Some (S n) =>
          repl ++ match t with
                  | [] => []
                  | _ :: t' => scan n true t'
                  end
      | Some O =>
          (if adj then [] else repl)
            ++ match t with
               | [] => []
               | c :: t' => c :: scan O false t'
               end
      | None =>
          match t with
          | [] => []
          | c :: t' => c :: scan O false t'
          end
      end
  end.

Definition replace_all (t : text) : text := scan O false t.

(** Some span starts at some position of [t]. *)
Fixpoint found (t : text) : bool :=
  match span t with
  | Some _ => true
  | None =>
      match t with
      | [] => false
      | _ :: t' => found t'
      end
  end.
End Scan.

End scanner.

(** ** Package [regexp]: unanchored patterns

    Modelled from the spec: a pattern matches "anywhere (not anchored)" and
    masking replaces "every non-overlapping matched span".  Patterns are
    regular expressions over characters; among the matches that start at one
    position the longest is taken. *)
Module regexp.

Inductive Regexp : Type :=
  | Void
  | Eps
  | Chr (c : ascii)
  | Any
  | Cat (r1 r2 : Regexp)
  | Alt (r1 r2 : Regexp)
  | Star (r : Regexp).

(** The pattern that matches exactly the literal text [t]. *)
Fixpoint Lit (t : text) : Regexp :=
  match t with
  | [] => Eps
  | c :: t' => Cat (Chr c) (Lit t')
  end.

Fixpoint nullable (r : Regexp) : bool :=
  match r with
  | Void => false
  | Eps => true
  | Chr _ => false
  | Any => false
  | Cat r1 r2 => nullable r1 && nullable r2
  | Alt r1 r2 => nullable r1 || nullable r2
  | Star _ => true
  end.

Fixpoint deriv (c : ascii) (r : Regexp) : Regexp :=
  match r with
  | Void => Void
  | Eps => Void
  | Chr c' => if Ascii.eqb c c' then Eps else Void
  | Any => Eps
  | Cat r1 r2 =>
      if nullable r1
      then Alt (Cat (deriv c r1) r2) (deriv c r2)
      else Cat (deriv c r1) r2
  | Alt r1 r2 => Alt (deriv c r1) (deriv c r2)
  | Star r' => Cat (deriv c r') (Star r')
  end.

(** Length of the longest prefix of [t] matched by [r]. *)
Fixpoint longest (r : Regexp) (t : text) : option nat :=
  match t with
  | [] => if nullable r then Some O else None
  | c :: t' =>
      match longest (deriv c r) t' with
      | Some n => Some (S n)
      | None => if nullable r then Some O else None
      end
  end.

Definition MatchString (r : Regexp) (s : string) : bool :=
  scanner.found (longest r) (chars s).

Definition ReplaceAllString (r : Regexp) (src repl : string) : string :=
  of_chars (scanner.replace_all (longest r) (chars repl) (chars src)).

End regexp.

(** ** Package [strings]: literal substrings

    Modelled from the spec: a literal matches when the candidate "contains the
    literal as a substring"; masking replaces "every occurrence of that
    literal".  The empty literal occurs before every character and at the end
    of the text. *)
Module strings.

Fixpoint has_prefix (old t : text) : bool :=
  match old, t with
  | [], _ => true
  | _ :: _, [] => false
  | a :: old', b :: t' => Ascii.eqb a b && has_prefix old' t'
  end.

Definition span (old : text) (t : text) : option nat :=
  if has_prefix old t then Some (length old) else None.

Definition Contains (s substr : string) : bool :=
  scanner.found (span (chars substr)) (chars s).

Definition ReplaceAll (s old new : string) : string :=
  of_chars (scanner.replace_all (span (chars old)) (chars new) (chars s)).

End strings.


(** ** Package [hclog]: the underlying structured logger

    Modelled from the spec: the sink collaborator supports construct-from-
    options, deriving a named child that inherits the format settings, setting
    a minimum level per logger, attaching and reporting permanently-bound
    key/value arguments, and a leveled emit call with a message and an
    ordered key/value argument list. *)
Module hclog.

(** The type [hclog.Level] of Go; [NoLevel] is the "unset" sentinel. *)
Inductive LogLevel : Type :=
  | NoLevel | Trace | Debug | Info | Warn | Error | Off.

Global Instance LogLevel_eq_dec : EqDecision LogLevel.
Proof. solve_decision. Defined.

Definition rank (l : LogLevel) : nat :=
  match l with
  | NoLevel => 0 | Trace => 1 | Debug => 2 | Info => 3
  | Warn => 4 | Error => 5 | Off => 6
  end.

(** An output target ([io.Writer]), known by its identity. *)
Inductive Writer : Type :=
  | Stderr
  | Stdout
  | Buffer (id : nat).

(** A value of type [interface{}] passed as a key or as a field value. *)
Inductive Value : Type :=
  | VNil
  | VBool (b : bool)
  | VInt (n : Z)
  | VString (s : string).

(** [[]interface{}]: keys at the even positions, values at the odd ones. *)
Abbreviation Args := (list Value).

Record LoggerOptions : Type := {
  Name : string;
  Level : LogLevel;
  Output : option Writer;
  JSONFormat : bool;
  IncludeLocation : bool;
  AdditionalLocationOffset : Z;
  DisableTime : bool;
  IndependentLevels : bool;
}.

(** The zero value [hclog.LoggerOptions{}]. *)
Definition zero : LoggerOptions := {|
  Name := ""; Level := NoLevel; Output := None; JSONFormat := false;
  IncludeLocation := false; AdditionalLocationOffset := 0%Z;
  DisableTime := false; IndependentLevels := false |}.

Definition set_Name (n : string) (o : LoggerOptions) : LoggerOptions := {|
  Name := n; Level := Level o; Output := Output o;
  JSONFormat := JSONFormat o; IncludeLocation := IncludeLocation o;
  AdditionalLocationOffset := AdditionalLocationOffset o;
  DisableTime := DisableTime o; IndependentLevels := IndependentLevels o |}.

Definition set_Level (l : LogLevel) (o : LoggerOptions) : LoggerOptions := {|
  Name := Name o; Level := l; Output := Output o;
  JSONFormat := JSONFormat o; IncludeLocation := IncludeLocation o;
  AdditionalLocationOffset := AdditionalLocationOffset o;
  DisableTime := DisableTime o; IndependentLevels := IndependentLevels o |}.

(** A logger: its live settings (name and minimum level among them) and its
    permanently-bound arguments. *)
Record Logger : Type := {
  settings : LoggerOptions;
  implied : Args;
}.

(** One record written to the sink. *)
Record Entry : Type := {
  entry_level : LogLevel;
  entry_name : string;
  entry_msg : string;
  entry_implied : Args;
  entry_args : Args;
  entry_output : option Writer;
}.

(** [hclog.New]: an unset level means the default level, [Info]. *)
Definition New (o : LoggerOptions) : Logger := {|
  settings := if decide (Level o = NoLevel) then set_Level Info o else o;
  implied := [] |}.

(** [Logger.Named]: the child's name extends the parent's. *)
Definition Named (l : Logger) (n : string) : Logger := {|
  settings :=
    set_Name (if decide (Name (settings l) = "") then n
              else Name (settings l) +:+ "." +:+ n) (settings l);
  implied := implied l |}.

Definition SetLevel (l : Logger) (lvl : LogLevel) : Logger :=
  {| settings := set_Level lvl (settings l); implied := implied l |}.

Definition With (l : Logger) (key : string) (value : Value) : Logger :=
  {| settings := settings l; implied := implied l ++ [VString key; value] |}.

Definition ImpliedArgs (l : Logger) : Args := implied l.

Definition enabled (l : Logger) (lvl : LogLevel) : bool :=
  bool_decide (rank (Level (settings l)) ≤ rank lvl).

End hclog.

(** ** The state threaded through the package

    [options] is the heap of [*hclog.LoggerOptions] cells; [written] lists the
    records the sink has received, oldest first. *)
Abbreviation loc := nat (only parsing).

Record State : Type := {
  options : gmap loc hclog.LoggerOptions;
  written : list hclog.Entry;
}.

Definition M (A : Type) : Type := State → A * State.

Definition ret {A} (a : A) : M A := λ st, (a, st).

Definition bind {A B} (m : M A) (f : A → M B) : M B :=
  λ st, let (a, st') := m st in f a st'.

Notation "'do' x <- m ; k" := (bind m (λ x, k))
  (at level 10, x name, m at level 100, k at level 200).

(** [&hclog.LoggerOptions{...}]: a fresh cell holding [o]. *)
Definition alloc (o : hclog.LoggerOptions) : M loc :=
  λ st, let p := fresh (dom (options st)) in
        (p, {| options := <[p := o]> (options st); written := written st |}).

(** [*p], the zero value if the cell was never allocated. *)
Definition load (p : loc) : M hclog.LoggerOptions :=
  λ st, (default hclog.zero (options st !! p), st).

(** [p.Field = ...] *)
Definition update (p : loc) (f : hclog.LoggerOptions → hclog.LoggerOptions) : M unit :=
  λ st, (tt, {| options := alter f p (options st); written := written st |}).

(** The leveled emit call of a logger: exactly zero or one record. *)
Definition Log (l : hclog.Logger) (lvl : hclog.LogLevel) (msg : string)
    (args : hclog.Args) : M unit :=
  λ st,
    if hclog.enabled l lvl
    then (tt, {| options := options st;
                 written := written st ++
                   [ {| hclog.entry_level := lvl;
                        hclog.entry_name := hclog.Name (hclog.settings l);
                        hclog.entry_msg := msg;
                        hclog.entry_implied := hclog.implied l;
                        hclog.entry_args := args;
                        hclog.entry_output := hclog.Output (hclog.settings l) |} ] |})
    else (tt, st).

(** ** Package [context]: an immutable key/value carrier

    [WithValue] wraps the parent; [Value] finds the innermost binding. *)
Module context.

Inductive Key : Type :=
  | SinkKey
  | SinkOptionsKey
  | SDKRootLoggerKey
  | SDKRootLoggerOptionsKey
  | SDKRootTFLoggerOptsKey
  | ProviderRootLoggerKey
  | ProviderRootLoggerOptionsKey
  | ProviderRootTFLoggerOptsKey.

Global Instance Key_eq_dec : EqDecision Key.
Proof. solve_decision. Defined.

Section Carrier.
Context {V : Type}.

Definition Context : Type := list (Key * V).

Definition Background : Context := [].

Definition WithValue (ctx : Context) (k : Key) (v : V) : Context :=
  (k, v) :: ctx.

Fixpoint Value (ctx : Context) (k : Key) : option V :=
  match ctx with
  | [] => None
  | (k', v) :: parent => if decide (k' = k) then Some v else Value parent k
  end.
End Carrier.

Global Arguments Context : clear implicits.

End context.

(** ** Package [hclogutils]: field maps, argument lists, option copies *)
Module hclogutils.

(** A field map of one call, [map[string]interface{}]. *)
Abbreviation Fields := (gmap string hclog.Value).

(** Modelled from the spec: the missing [MapToArgs] flattens one field map
    into interleaved key/value pairs. *)
Definition MapToArgs (m : Fields) : hclog.Args :=
  flat_map (λ kv, [hclog.VString kv.1; kv.2]) (map_to_list m).

(** Modelled from the spec: the missing [MapsToArgs] takes the field maps in
    call order, a later map overriding an earlier one on a common key, and
    flattens the result; no map gives no argument. *)
Definition MapsToArgs (maps : list Fields) : hclog.Args :=
  MapToArgs (fold_left (λ merged m, m ∪ merged) maps ∅).

(** Modelled from the spec: the keys of an argument list, the strings at
    its even positions. *)
Fixpoint ArgsToKeys (args : hclog.Args) : list string :=
  match args with
  | k :: _ :: rest =>
      match k with
      | hclog.VString s => s :: ArgsToKeys rest
      | _ => ArgsToKeys rest
      end
  | _ => []
  end.

(** Modelled from the spec: the missing [LoggerOptionsCopy] makes "a deep
    value copy" of the options it is given, in a cell of its own; absent
    options are copied as the zero value. *)
Definition LoggerOptionsCopy (src : option loc) : M loc :=
  match src with
  | None => alloc hclog.zero
  | Some p => do o <- load p; alloc o
  end.

End hclogutils.

(** ** Package [logging]: registry slots, creation options, policy store *)
Module logging.

(** Modelled from the spec: the missing constants; the name "defaults per
    role - sdk or provider - if unspecified". *)
Definition DefaultSDKRootLoggerName : string := "sdk".

(** Modelled from the spec: the default name of the provider role. *)
Definition DefaultProviderRootLoggerName : string := "provider".

(** Modelled from the spec: the missing type of the applied options, with
    the fields the source reads from [opts]: name, level, location and time
    flags, output target and location offset. *)
Record LoggerOpts : Type := {
  Name : string;
  Level : hclog.LogLevel;
  IncludeLocation : bool;
  AdditionalLocationOffset : Z;
  Output : option hclog.Writer;
  IncludeTime : bool;
}.

(** Modelled from the spec: one of the variadic options, a change of the
    configuration record. *)
Definition Option : Type := LoggerOpts → LoggerOpts.

(** Modelled from the spec: the missing [ApplyLoggerOpts] resolves the
    variadic options to one configuration record, each option applied in
    turn.  The record the options start from is not described; the zero
    value is taken here. *)
Definition ApplyLoggerOpts (opts : list Option) : LoggerOpts :=
  fold_left (λ l opt, opt l) opts
    {| Name := ""; Level := hclog.NoLevel; IncludeLocation := false;
       AdditionalLocationOffset := 0%Z; Output := None; IncludeTime := false |}.

Definition set_Name (n : string) (o : LoggerOpts) : LoggerOpts := {|
  Name := n; Level := Level o; IncludeLocation := IncludeLocation o;
  AdditionalLocationOffset := AdditionalLocationOffset o;
  Output := Output o; IncludeTime := IncludeTime o |}.

Definition set_Level (l : hclog.LogLevel) (o : LoggerOpts) : LoggerOpts := {|
  Name := Name o; Level := l; IncludeLocation := IncludeLocation o;
  AdditionalLocationOffset := AdditionalLocationOffset o;
  Output := Output o; IncludeTime := IncludeTime o |}.

(** Modelled from the spec: the missing type of the policy store, its six
    ordered rule sets "each append-only". *)
Record TFLoggerOpts : Type := {
  OmitLogWithFieldKeys : list string;
  OmitLogWithMessageRegexes : list regexp.Regexp;
  OmitLogWithMessageStrings : list string;
  MaskFieldValuesWithFieldKeys : list string;
  MaskMessageRegexes : list regexp.Regexp;
  MaskMessageStrings : list string;
}.

(** Modelled from the spec: the store a context without policy reads as. *)
Definition empty : TFLoggerOpts := {|
  OmitLogWithFieldKeys := []; OmitLogWithMessageRegexes := [];
  OmitLogWithMessageStrings := []; MaskFieldValuesWithFieldKeys := [];
  MaskMessageRegexes := []; MaskMessageStrings := [] |}.

(** Modelled from the spec: each of the six missing [With...] options
    "appends the new keys/patterns/literals to the matching set" of the store
    it is applied to and returns the extended store.  Here, the field keys
    to omit by. *)
Definition WithOmitLogWithFieldKeys (keys : list string)
    (l : TFLoggerOpts) : TFLoggerOpts := {|
  OmitLogWithFieldKeys := OmitLogWithFieldKeys l ++ keys;
  OmitLogWithMessageRegexes := OmitLogWithMessageRegexes l;
  OmitLogWithMessageStrings := OmitLogWithMessageStrings l;
  MaskFieldValuesWithFieldKeys := MaskFieldValuesWithFieldKeys l;
  MaskMessageRegexes := MaskMessageRegexes l;
  MaskMessageStrings := MaskMessageStrings l |}.

(** Modelled from the spec: the missing [WithOmitLogWithMessageRegexes] appends the patterns to omit by. *)
Definition WithOmitLogWithMessageRegexes (expressions : list regexp.Regexp)
    (l : TFLoggerOpts) : TFLoggerOpts := {|
  OmitLogWithFieldKeys := OmitLogWithFieldKeys l;
  OmitLogWithMessageRegexes := OmitLogWithMessageRegexes l ++ expressions;
  OmitLogWithMessageStrings := OmitLogWithMessageStrings l;
  MaskFieldValuesWithFieldKeys := MaskFieldValuesWithFieldKeys l;
  MaskMessageRegexes := MaskMessageRegexes l;
  MaskMessageStrings := MaskMessageStrings l |}.

(** Modelled from the spec: the missing [WithOmitLogWithMessageStrings] appends the literals to omit by. *)
Definition WithOmitLogWithMessageStrings (matchingStrings : list string)
    (l : TFLoggerOpts) : TFLoggerOpts := {|
  OmitLogWithFieldKeys := OmitLogWithFieldKeys l;
  OmitLogWithMessageRegexes := OmitLogWithMessageRegexes l;
  OmitLogWithMessageStrings := OmitLogWithMessageStrings l ++ matchingStrings;
  MaskFieldValuesWithFieldKeys := MaskFieldValuesWithFieldKeys l;
  MaskMessageRegexes := MaskMessageRegexes l;
  MaskMessageStrings := MaskMessageStrings l |}.

(** Modelled from the spec: the missing [WithMaskFieldValuesWithFieldKeys] appends the field keys to mask by. *)
Definition WithMaskFieldValuesWithFieldKeys (keys : list string)
    (l : TFLoggerOpts) : TFLoggerOpts := {|
  OmitLogWithFieldKeys := OmitLogWithFieldKeys l;
  OmitLogWithMessageRegexes := OmitLogWithMessageRegexes l;
  OmitLogWithMessageStrings := OmitLogWithMessageStrings l;
  MaskFieldValuesWithFieldKeys := MaskFieldValuesWithFieldKeys l ++ keys;
  MaskMessageRegexes := MaskMessageRegexes l;
  MaskMessageStrings := MaskMessageStrings l |}.

(** Modelled from the spec: the missing [WithMaskMessageRegexes] appends the patterns to mask by. *)
Definition WithMaskMessageRegexes (expressions : list regexp.Regexp)
    (l : TFLoggerOpts) : TFLoggerOpts := {|
  OmitLogWithFieldKeys := OmitLogWithFieldKeys l;
  OmitLogWithMessageRegexes := OmitLogWithMessageRegexes l;
  OmitLogWithMessageStrings := OmitLogWithMessageStrings l;
  MaskFieldValuesWithFieldKeys := MaskFieldValuesWithFieldKeys l;
  MaskMessageRegexes := MaskMessageRegexes l ++ expressions;
  MaskMessageStrings := MaskMessageStrings l |}.

(** Modelled from the spec: the missing [WithMaskMessageStrings] appends the literals to mask by. *)
Definition WithMaskMessageStrings (matchingStrings : list string)
    (l : TFLoggerOpts) : TFLoggerOpts := {|
  OmitLogWithFieldKeys := OmitLogWithFieldKeys l;
  OmitLogWithMessageRegexes := OmitLogWithMessageRegexes l;
  OmitLogWithMessageStrings := OmitLogWithMessageStrings l;
  MaskFieldValuesWithFieldKeys := MaskFieldValuesWithFieldKeys l;
  MaskMessageRegexes := MaskMessageRegexes l;
  MaskMessageStrings := MaskMessageStrings l ++ matchingStrings |}.

(** Modelled from the spec: what a context slot can hold: a logger handle,
    the options of a logger (a pointer), or a policy store. *)
Inductive Binding : Type :=
  | ALogger (l : hclog.Logger)
  | AnOptions (p : loc)
  | AStore (o : TFLoggerOpts).

Abbreviation Context := (context.Context Binding).

(** Modelled from the spec: the missing getters return the value of their
    slot, or absent (the empty store for a policy slot); the missing setters
    return a new context and leave the one passed in as it was.  Here, the
    read of a logger slot. *)
Definition get_logger (k : context.Key) (ctx : Context) : option hclog.Logger :=
  match context.Value ctx k with
  | Some (ALogger l) => Some l
  | _ => None
  end.

(** Modelled from the spec: the read of an options slot. *)
Definition get_options (k : context.Key) (ctx : Context) : option loc :=
  match context.Value ctx k with
  | Some (AnOptions p) => Some p
  | _ => None
  end.

(** Modelled from the spec: the read of a policy slot, "empty if absent". *)
Definition get_store (k : context.Key) (ctx : Context) : TFLoggerOpts :=
  match context.Value ctx k with
  | Some (AStore o) => o
  | _ => empty
  end.

(** Modelled from the spec: the slot of the host sink and of its options. *)
Definition GetSink : Context → option hclog.Logger :=
  get_logger context.SinkKey.
(** Modelled from the spec: the options the host sink was created from. *)
Definition GetSinkOptions : Context → option loc :=
  get_options context.SinkOptionsKey.

(** Modelled from the spec: the three slots of the SDK role, each with its
    getter and its setter. *)
Definition GetSDKRootLogger : Context → option hclog.Logger :=
  get_logger context.SDKRootLoggerKey.
Definition SetSDKRootLogger (ctx : Context) (l : hclog.Logger) : Context :=
  context.WithValue ctx context.SDKRootLoggerKey (ALogger l).
Definition GetSDKRootLoggerOptions : Context → option loc :=
  get_options context.SDKRootLoggerOptionsKey.
Definition SetSDKRootLoggerOptions (ctx : Context) (p : loc) : Context :=
  context.WithValue ctx context.SDKRootLoggerOptionsKey (AnOptions p).
Definition GetSDKRootTFLoggerOpts : Context → TFLoggerOpts :=
  get_store context.SDKRootTFLoggerOptsKey.
Definition SetSDKRootTFLoggerOpts (ctx : Context) (o : TFLoggerOpts) : Context :=
  context.WithValue ctx context.SDKRootTFLoggerOptsKey (AStore o).

(** Modelled from the spec: the three slots of the provider role. *)
Definition GetProviderRootLogger : Context → option hclog.Logger :=
  get_logger context.ProviderRootLoggerKey.
Definition SetProviderRootLogger (ctx : Context) (l : hclog.Logger) : Context :=
  context.WithValue ctx context.ProviderRootLoggerKey (ALogger l).
Definition GetProviderRootLoggerOptions : Context → option loc :=
  get_options context.ProviderRootLoggerOptionsKey.
Definition SetProviderRootLoggerOptions (ctx : Context) (p : loc) : Context :=
  context.WithValue ctx context.ProviderRootLoggerOptionsKey (AnOptions p).
Definition GetProviderRootTFLoggerOpts : Context → TFLoggerOpts :=
  get_store context.ProviderRootTFLoggerOptsKey.

(** Modelled from the spec: "for every transient field whose key is in
    [maskFieldValueByFieldKeys], replace its value with the fixed mask
    token"; keys and other values stay. *)
Fixpoint mask_values (keys : list string) (args : hclog.Args) : hclog.Args :=
  match args with
  | k :: v :: rest =>
      k :: (match k with
            | hclog.VString s =>
                if bool_decide (s ∈ keys) then hclog.VString MaskToken else v
            | _ => v
            end) :: mask_values keys rest
  | _ => args
  end.

(** Modelled from the spec: the missing [ShouldOmit] short-circuits in this
    order: a key of the permanent or of the transient fields is a configured
    omission key; the message matches a configured pattern; the message
    contains a configured literal. *)
Definition ShouldOmit (lo : TFLoggerOpts) (msg : string)
    (impliedArgs additionalArgs : hclog.Args) : bool :=
  existsb (λ k, bool_decide (k ∈ OmitLogWithFieldKeys lo))
          (hclogutils.ArgsToKeys impliedArgs ++ hclogutils.ArgsToKeys additionalArgs)
  || existsb (λ r, regexp.MatchString r msg) (OmitLogWithMessageRegexes lo)
  || existsb (λ s, strings.Contains msg s) (OmitLogWithMessageStrings lo).

(** Modelled from the spec: the missing [ApplyMask] applies every rule, the
    field keys first, then the patterns, then the literals.  It works in
    place on the message cell and on the two argument slices it is handed;
    the contents they have afterwards are returned, in that order.  Only the
    message and the values of the transient fields are rewritten. *)
Definition ApplyMask (lo : TFLoggerOpts) (msg : string)
    (impliedArgs additionalArgs : hclog.Args)
    : string * hclog.Args * hclog.Args :=
  let byPattern :=
    fold_left (λ m r, regexp.ReplaceAllString r m MaskToken)
              (MaskMessageRegexes lo) msg in
  let byLiteral :=
    fold_left (λ m s, strings.ReplaceAll m s MaskToken)
              (MaskMessageStrings lo) byPattern in
  (byLiteral, impliedArgs,
   mask_values (MaskFieldValuesWithFieldKeys lo) additionalArgs).

End logging.

(** ** Package [tfsdklog]: [sdk.go] *)
Module tfsdklog.

Definition NewRootSDKLogger (ctx : logging.Context)
    (options : list logging.Option) : M logging.Context :=
  let opts := logging.ApplyLoggerOpts options in
  let opts :=
    if decide (logging.Name opts = "")
    then logging.set_Name logging.DefaultSDKRootLoggerName opts else opts in
  match logging.GetSink ctx with
  | Some sink =>
      let logger := hclog.Named sink (logging.Name opts) in
      let sinkLoggerOptions := logging.GetSinkOptions ctx in
      do sdkLoggerOptions <- hclogutils.LoggerOptionsCopy sinkLoggerOptions;
      do _ <- update sdkLoggerOptions (hclog.set_Name (logging.Name opts));
      do logger <-
        (if decide (logging.Level opts ≠ hclog.NoLevel)
         then
           do _ <- update sdkLoggerOptions (hclog.set_Level (logging.Level opts));
           ret (hclog.SetLevel logger (logging.Level opts))
         else ret logger);
      let ctx := logging.SetSDKRootLogger ctx logger in
      let ctx := logging.SetSDKRootLoggerOptions ctx sdkLoggerOptions in
      ret ctx
  | None =>
      let opts :=
        if decide (logging.Level opts = hclog.NoLevel)
        then logging.set_Level hclog.Trace opts else opts in
      do loggerOptions <- alloc {|
        hclog.Name := logging.Name opts;
        hclog.Level := logging.Level opts;
        hclog.JSONFormat := true;
        hclog.IndependentLevels := true;
        hclog.IncludeLocation := logging.IncludeLocation opts;
        hclog.DisableTime := negb (logging.IncludeTime opts);
        hclog.Output := logging.Output opts;
        hclog.AdditionalLocationOffset := logging.AdditionalLocationOffset opts |};
      do created <- load loggerOptions;
      let ctx := logging.SetSDKRootLogger ctx (hclog.New created) in
      let ctx := logging.SetSDKRootLoggerOptions ctx loggerOptions in
      ret ctx
  end.

Definition NewRootProviderLogger (ctx : logging.Context)
    (options : list logging.Option) : M logging.Context :=
  let opts := logging.ApplyLoggerOpts options in
  let opts :=
    if decide (logging.Name opts = "")
    then logging.set_Name logging.DefaultProviderRootLoggerName opts else opts in
  match logging.GetSink ctx with
  | Some sink =>
      let logger := hclog.Named sink (logging.Name opts) in
      let sinkLoggerOptions := logging.GetSinkOptions ctx in
      do providerLoggerOptions <- hclogutils.LoggerOptionsCopy sinkLoggerOptions;
      do _ <- update providerLoggerOptions (hclog.set_Name (logging.Name opts));
      do logger <-
        (if decide (logging.Level opts ≠ hclog.NoLevel)
         then
           do _ <- update providerLoggerOptions
                     (hclog.set_Level (logging.Level opts));
           ret (hclog.SetLevel logger (logging.Level opts))
         else ret logger);
      let ctx := logging.SetProviderRootLogger ctx logger in
      let ctx := logging.SetProviderRootLoggerOptions ctx providerLoggerOptions in
      ret ctx
  | None =>
      let opts :=
        if decide (logging.Level opts = hclog.NoLevel)
        then logging.set_Level hclog.Trace opts else opts in
      do loggerOptions <- alloc {|
        hclog.Name := logging.Name opts;
        hclog.Level := logging.Level opts;
        hclog.JSONFormat := true;
        hclog.IndependentLevels := true;
        hclog.IncludeLocation := logging.IncludeLocation opts;
        hclog.DisableTime := negb (logging.IncludeTime opts);
        hclog.Output := logging.Output opts;
        hclog.AdditionalLocationOffset := logging.AdditionalLocationOffset opts |};
      do created <- load loggerOptions;
      let ctx := logging.SetProviderRootLogger ctx (hclog.New created) in
      let ctx := logging.SetProviderRootLoggerOptions ctx loggerOptions in
      ret ctx
  end.

Definition SetField (ctx : logging.Context) (key : string)
    (value : hclog.Value) : logging.Context :=
  match logging.GetSDKRootLogger ctx with
  | None => ctx
  | Some logger => logging.SetSDKRootLogger ctx (hclog.With logger key value)
  end.

(** What [omitOrMask] leaves behind: the content of the message cell [*msg],
    the content of the slice [logger.ImpliedArgs()] handed to the policy, and
    the two results. *)
Record Outcome : Type := {
  message : string;
  impliedArgs : hclog.Args;
  additionalArgs : hclog.Args;
  shouldOmit : bool;
}.

Definition omitOrMask (ctx : logging.Context) (logger : hclog.Logger)
    (msg : string) (additionalFields : list hclogutils.Fields) : Outcome :=
  let tfLoggerOpts := logging.GetSDKRootTFLoggerOpts ctx in
  let additionalArgs := hclogutils.MapsToArgs additionalFields in
  let impliedArgs := hclog.ImpliedArgs logger in
  if logging.ShouldOmit tfLoggerOpts msg impliedArgs additionalArgs
  then {| message := msg; impliedArgs := impliedArgs;
          additionalArgs := []; shouldOmit := true |}
  else
    let '(msg, impliedArgs, additionalArgs) :=
      logging.ApplyMask tfLoggerOpts msg impliedArgs additionalArgs in
    {| message := msg; impliedArgs := impliedArgs;
       additionalArgs := additionalArgs; shouldOmit := false |}.

(** The logger as the emit call finds it after [omitOrMask]: its implied
    slice is the one the policy was handed. *)
Definition after (logger : hclog.Logger) (o : Outcome) : hclog.Logger :=
  {| hclog.settings := hclog.settings logger; hclog.implied := impliedArgs o |}.

Definition Trace (ctx : logging.Context) (msg : string)
    (additionalFields : list hclogutils.Fields) : M unit :=
  match logging.GetSDKRootLogger ctx with
  | None => ret tt
  | Some logger =>
      let o := omitOrMask ctx logger msg additionalFields in
      if shouldOmit o then ret tt
      else Log (after logger o) hclog.Trace (message o) (additionalArgs o)
  end.

Definition Debug (ctx : logging.Context) (msg : string)
    (additionalFields : list hclogutils.Fields) : M unit :=
  match logging.GetSDKRootLogger ctx with
  | None => ret tt
  | Some logger =>
      let o := omitOrMask ctx logger msg additionalFields in
      if shouldOmit o then ret tt
      else Log (after logger o) hclog.Debug (message o) (additionalArgs o)
  end.

Definition Info (ctx : logging.Context) (msg : string)
    (additionalFields : list hclogutils.Fields) : M unit :=
  match logging.GetSDKRootLogger ctx with
  | None => ret tt
  | Some logger =>
      let o := omitOrMask ctx logger msg additionalFields in
      if shouldOmit o then ret tt
      else Log (after logger o) hclog.Info (message o) (additionalArgs o)
  end.

Definition Warn (ctx : logging.Context) (msg : string)
    (additionalFields : list hclogutils.Fields) : M unit :=
  match logging.GetSDKRootLogger ctx with
  | None => ret tt
  | Some logger =>
      let o := omitOrMask ctx logger msg additionalFields in
      if shouldOmit o then ret tt
      else Log (after logger o) hclog.Warn (message o) (additionalArgs o)
  end.

Definition Error (ctx : logging.Context) (msg : string)
    (additionalFields : list hclogutils.Fields) : M unit :=
  match logging.GetSDKRootLogger ctx with
  | None => ret tt
  | Some logger =>
      let o := omitOrMask ctx logger msg additionalFields in
      if shouldOmit o then ret tt
      else Log (after logger o) hclog.Error (message o) (additionalArgs o)
  end.

Definition OmitLogWithFieldKeys (ctx : logging.Context)
    (keys : list string) : logging.Context :=
  let lOpts := logging.GetSDKRootTFLoggerOpts ctx in
  let lOpts := logging.WithOmitLogWithFieldKeys keys lOpts in
  logging.SetSDKRootTFLoggerOpts ctx lOpts.

Definition OmitLogWithMessageRegexes (ctx : logging.Context)
    (expressions : list regexp.Regexp) : logging.Context :=
  let lOpts := logging.GetSDKRootTFLoggerOpts ctx in
  let lOpts := logging.WithOmitLogWithMessageRegexes expressions lOpts in
  logging.SetSDKRootTFLoggerOpts ctx lOpts.

Definition OmitLogWithMessageStrings (ctx : logging.Context)
    (matchingStrings : list string) : logging.Context :=
  let lOpts := logging.GetSDKRootTFLoggerOpts ctx in
  let lOpts := logging.WithOmitLogWithMessageStrings matchingStrings lOpts in
  logging.SetSDKRootTFLoggerOpts ctx lOpts.

Definition MaskFieldValuesWithFieldKeys (ctx : logging.Context)
    (keys : list string) : logging.Context :=
  let lOpts := logging.GetSDKRootTFLoggerOpts ctx in
  let lOpts := logging.WithMaskFieldValuesWithFieldKeys keys lOpts in
  logging.SetSDKRootTFLoggerOpts ctx lOpts.

Definition MaskMessageRegexes (ctx : logging.Context)
    (expressions : list regexp.Regexp) : logging.Context :=
  let lOpts := logging.GetSDKRootTFLoggerOpts ctx in
  let lOpts := logging.WithMaskMessageRegexes expressions lOpts in
  logging.SetSDKRootTFLoggerOpts ctx lOpts.

Definition MaskMessageStrings (ctx : logging.Context)
    (matchingStrings : list string) : logging.Context :=
  let lOpts := logging.GetSDKRootTFLoggerOpts ctx in
  let lOpts := logging.WithMaskMessageStrings matchingStrings lOpts in
  logging.SetSDKRootTFLoggerOpts ctx lOpts.

End tfsdklog.

(** ** The operations of the package, gathered for the statements below *)

(** The five emit operations. *)
Inductive Emit : Type := ETrace | EDebug | EInfo | EWarn | EError.

Definition emit (e : Emit) : logging.Context → string →
    list hclogutils.Fields → M unit :=
  match e with
  | ETrace => tfsdklog.Trace
  | EDebug => tfsdklog.Debug
  | EInfo => tfsdklog.Info
  | EWarn => tfsdklog.Warn
  | EError => tfsdklog.Error
  end.

Definition level_of (e : Emit) : hclog.LogLevel :=
  match e with
  | ETrace => hclog.Trace
  | EDebug => hclog.Debug
  | EInfo => hclog.Info
  | EWarn => hclog.Warn
  | EError => hclog.Error
  end.

(** The six policy-extension operations with their arguments. *)
Inductive Extend : Type :=
  | XOmitLogWithFieldKeys (keys : list string)
  | XOmitLogWithMessageRegexes (expressions : list regexp.Regexp)
  | XOmitLogWithMessageStrings (matchingStrings : list string)
  | XMaskFieldValuesWithFieldKeys (keys : list string)
  | XMaskMessageRegexes (expressions : list regexp.Regexp)
  | XMaskMessageStrings (matchingStrings : list string).

Definition extend (x : Extend) (ctx : logging.Context) : logging.Context :=
  match x with
  | XOmitLogWithFieldKeys keys => tfsdklog.OmitLogWithFieldKeys ctx keys
  | XOmitLogWithMessageRegexes rs => tfsdklog.OmitLogWithMessageRegexes ctx rs
  | XOmitLogWithMessageStrings ss => tfsdklog.OmitLogWithMessageStrings ctx ss
  | XMaskFieldValuesWithFieldKeys keys =>
      tfsdklog.MaskFieldValuesWithFieldKeys ctx keys
  | XMaskMessageRegexes rs => tfsdklog.MaskMessageRegexes ctx rs
  | XMaskMessageStrings ss => tfsdklog.MaskMessageStrings ctx ss
  end.

(** A rule of any kind, and the six rule sets of a store read uniformly. *)
Inductive Rule : Type :=
  | Key (k : string)
  | Pattern (r : regexp.Regexp)
  | Literal (s : string).

Inductive Category : Type :=
  | OmitKeys | OmitPatterns | OmitLiterals
  | MaskKeys | MaskPatterns | MaskLiterals.

Global Instance Category_eq_dec : EqDecision Category.
Proof. solve_decision. Defined.

Definition rules (c : Category) (o : logging.TFLoggerOpts) : list Rule :=
  match c with
  | OmitKeys => Key <$> logging.OmitLogWithFieldKeys o
  | OmitPatterns => Pattern <$> logging.OmitLogWithMessageRegexes o
  | OmitLiterals => Literal <$> logging.OmitLogWithMessageStrings o
  | MaskKeys => Key <$> logging.MaskFieldValuesWithFieldKeys o
  | MaskPatterns => Pattern <$> logging.MaskMessageRegexes o
  | MaskLiterals => Literal <$> logging.MaskMessageStrings o
  end.

Definition category_of (x : Extend) : Category :=
  match x with
  | XOmitLogWithFieldKeys _ => OmitKeys
  | XOmitLogWithMessageRegexes _ => OmitPatterns
  | XOmitLogWithMessageStrings _ => OmitLiterals
  | XMaskFieldValuesWithFieldKeys _ => MaskKeys
  | XMaskMessageRegexes _ => MaskPatterns
  | XMaskMessageStrings _ => MaskLiterals
  end.

Definition given (x : Extend) : list Rule :=
  match x with
  | XOmitLogWithFieldKeys keys => Key <$> keys
  | XOmitLogWithMessageRegexes rs => Pattern <$> rs
  | XOmitLogWithMessageStrings ss => Literal <$> ss
  | XMaskFieldValuesWithFieldKeys keys => Key <$> keys
  | XMaskMessageRegexes rs => Pattern <$> rs
  | XMaskMessageStrings ss => Literal <$> ss
  end.

(** Every operation of the package but the two root-logger constructors.  An
    emit operation hands no context back: the caller keeps the one it had. *)
Inductive Operation : Type :=
  | DoSetField (key : string) (value : hclog.Value)
  | DoEmit (e : Emit) (msg : string) (additionalFields : list hclogutils.Fields)
  | DoExtend (x : Extend).

Definition run (op : Operation) (ctx : logging.Context) : M logging.Context :=
  match op with
  | DoSetField key value => ret (tfsdklog.SetField ctx key value)
  | DoEmit e msg additionalFields =>
      do _ <- emit e ctx msg additionalFields; ret ctx
  | DoExtend x => ret (extend x ctx)
  end.

(** The slots of the two roles. *)
Definition sdk_slot (k : context.Key) : bool :=
  match k with
  | context.SDKRootLoggerKey | context.SDKRootLoggerOptionsKey
  | context.SDKRootTFLoggerOptsKey => true
  | _ => false
  end.

Definition provider_slot (k : context.Key) : bool :=
  match k with
  | context.ProviderRootLoggerKey | context.ProviderRootLoggerOptionsKey
  | context.ProviderRootTFLoggerOptsKey => true
  | _ => false
  end.

(** Two contexts that read alike in the SDK slots. *)
Definition sdk_alike (ctx1 ctx2 : logging.Context) : Prop :=
  ∀ k, sdk_slot k = true → context.Value ctx1 k = context.Value ctx2 k.

(** The two roles and their root-logger constructors. *)
Inductive Role : Type := SDK | Provider.

Definition NewRootLogger (role : Role) : logging.Context →
    list logging.Option → M logging.Context :=
  match role with
  | SDK => tfsdklog.NewRootSDKLogger
  | Provider => tfsdklog.NewRootProviderLogger
  end.

Definition default_name (role : Role) : string :=
  match role with
  | SDK => logging.DefaultSDKRootLoggerName
  | Provider => logging.DefaultProviderRootLoggerName
  end.

Definition root_logger (role : Role) : logging.Context → option hclog.Logger :=
  match role with
  | SDK => logging.GetSDKRootLogger
  | Provider => logging.GetProviderRootLogger
  end.

Definition root_logger_options (role : Role) : logging.Context → option loc :=
  match role with
  | SDK => logging.GetSDKRootLoggerOptions
  | Provider => logging.GetProviderRootLoggerOptions
  end.

(** The name and the level a root logger is created with. *)
Definition resolved_name (role : Role) (opts : logging.LoggerOpts) : string :=
  if decide (logging.Name opts = "") then default_name role
  else logging.Name opts.

(** ** What replacing every occurrence means

    [Matches r w]: the pattern [r] matches the whole of the text [w]. *)
Inductive Matches : regexp.Regexp → text → Prop :=
  | matches_eps : Matches regexp.Eps []
  | matches_chr c : Matches (regexp.Chr c) [c]
  | matches_any c : Matches regexp.Any [c]
  | matches_cat r1 r2 w1 w2 :
      Matches r1 w1 → Matches r2 w2 → Matches (regexp.Cat r1 r2) (w1 ++ w2)
  | matches_alt_l r1 r2 w : Matches r1 w → Matches (regexp.Alt r1 r2) w
  | matches_alt_r r1 r2 w : Matches r2 w → Matches (regexp.Alt r1 r2) w
  | matches_star_nil r : Matches (regexp.Star r) []
  | matches_star_app r w1 w2 :
      Matches r w1 → Matches (regexp.Star r) w2 →
      Matches (regexp.Star r) (w1 ++ w2).

(** An occurrence of a rule is a piece of text the rule accepts: the literal
    itself, or a text the pattern matches.  A key rule has no occurrence in a
    message. *)
Definition occurrence (rule : Rule) (w : text) : Prop :=
  match rule with
  | Literal s => w = chars s
  | Pattern r => Matches r w
  | Key _ => False
  end.

Section Replacement.
Variable P : text → Prop.
Variable repl : text.

(** [w] is the occurrence taken at the head of [t]: the longest one that
    starts there. *)
Definition head_span (t w : text) : Prop :=
  w `prefix_of` t ∧ P w
  ∧ ∀ w', w' `prefix_of` t → P w' → length w' ≤ length w.

(** No occurrence starts at the head of [t]. *)
Definition no_span (t : text) : Prop := ∀ w, w `prefix_of` t → ¬ P w.

(** [Replaced adj t out]: [out] is [t] with its occurrences replaced by
    [repl], taken from left to right and never overlapping.  An empty
    occurrence is replaced where it is found, except right after another
    occurrence ([adj]), and the scan then moves on by one character. *)
Inductive Replaced : bool → text → text → Prop :=
  | replaced_end (adj : bool) :
      no_span [] → Replaced adj [] []
  | replaced_end_empty (adj : bool) :
      head_span [] [] →
      Replaced adj [] (if adj then [] else repl)
  | replaced_keep (adj : bool) c t out :
      no_span (c :: t) → Replaced false t out →
      Replaced adj (c :: t) (c :: out)
  | replaced_empty (adj : bool) c t out :
      head_span (c :: t) [] → Replaced false t out →
      Replaced adj (c :: t) ((if adj then [] else repl) ++ c :: out)
  | replaced_span (adj : bool) w t out :
      w ≠ [] → head_span (w ++ t) w → Replaced true t out →
      Replaced adj (w ++ t) (repl ++ out).
End Replacement.

(** No occurrence of the literal [old] starts inside [gap] when [rest]
    follows it. *)
Definition absent (old gap rest : text) : Prop :=
  ∀ g1 g2, gap = g1 ++ g2 → g2 ≠ [] → ¬ old `prefix_of` (g2 ++ rest).

(** The message [m'] is [m] with every occurrence of [rule] replaced by the
    mask token. *)
Definition Masks (rule : Rule) (m m' : string) : Prop :=
  Replaced (occurrence rule) (chars MaskToken) false (chars m) (chars m').


(** A host: its sink, the options the sink was created from, and a context
    that carries both. *)
Module host.

Definition sink_options : hclog.LoggerOptions := {|
  hclog.Name := "host"; hclog.Level := hclog.Info;
  hclog.Output := Some hclog.Stderr; hclog.JSONFormat := true;
  hclog.IncludeLocation := true; hclog.AdditionalLocationOffset := 1%Z;
  hclog.DisableTime := false; hclog.IndependentLevels := true |}.

Definition state : State :=
  {| options := {[ 0 := sink_options ]}; written := [] |}.

Definition ctx : logging.Context :=
  context.WithValue
    (context.WithValue context.Background context.SinkKey
       (logging.ALogger (hclog.New sink_options)))
    context.SinkOptionsKey (logging.AnOptions 0).

End host.

(** A standalone SDK root logger, with and without policies, for the
    scenarios below. *)
Module standalone.

Definition created : logging.Context * State :=
  tfsdklog.NewRootSDKLogger context.Background []
    {| options := ∅; written := [] |}.

Definition ctx : logging.Context := created.1.
Definition state : State := created.2.

Definition logger : hclog.Logger :=
  hclog.New {|
    hclog.Name := "sdk"; hclog.Level := hclog.Trace; hclog.Output := None;
    hclog.JSONFormat := true; hclog.IncludeLocation := false;
    hclog.AdditionalLocationOffset := 0%Z; hclog.DisableTime := true;
    hclog.IndependentLevels := true |}.

(** An omission rule on the key and a masking rule on the message of one
    entry. *)
Definition omit_and_mask : logging.Context :=
  tfsdklog.MaskMessageStrings
    (tfsdklog.OmitLogWithFieldKeys ctx ["password"]) ["secret"].

Definition login : list hclogutils.Fields :=
  [ {[ "password" := hclog.VString "x"; "user" := hclog.VString "a" ]} ].

End standalone.

(** The merged field set of an emit call has the key [k]: a field map of the
    call has it, or the logger of the context has it permanently bound. *)
Definition has_field (ctx : logging.Context)
    (additionalFields : list hclogutils.Fields) (k : string) : Prop :=
  (∃ m, m ∈ additionalFields ∧ is_Some (m !! k))
  ∨ (∃ logger, logging.GetSDKRootLogger ctx = Some logger
               ∧ k ∈ hclogutils.ArgsToKeys (hclog.ImpliedArgs logger)).

(** ** Notions for the further properties *)

(** The two slots a root-logger constructor of a role writes. *)
Definition logger_slot (role : Role) : context.Key :=
  match role with
  | SDK => context.SDKRootLoggerKey
  | Provider => context.ProviderRootLoggerKey
  end.

Definition options_slot (role : Role) : context.Key :=
  match role with
  | SDK => context.SDKRootLoggerOptionsKey
  | Provider => context.ProviderRootLoggerOptionsKey
  end.

(** The other role. *)
Definition other (role : Role) : Role :=
  match role with
  | SDK => Provider
  | Provider => SDK
  end.


(** The field maps of one call merged, a later map overriding an earlier
    one on a common key. *)
Definition merge (maps : list hclogutils.Fields) : hclogutils.Fields :=
  fold_left (λ merged m, m ∪ merged) maps ∅.

(** The arguments of a merged field map, the values of the keys in [keys]
    replaced by the mask token. *)
Definition masked_args (keys : list string) (m : hclogutils.Fields) : hclog.Args :=
  flat_map
    (λ kv, [hclog.VString kv.1;
            if bool_decide (kv.1 ∈ keys) then hclog.VString MaskToken
            else kv.2])
    (map_to_list m).

(** The text [w] is a part of the text [t]. *)
Definition part_of (w t : text) : Prop := ∃ a b, t = a ++ w ++ b.

(** An omission rule of the store applies to an entry with the message [msg]
    and the field keys [keys]: a key is a configured key, a part of the
    message is matched by a configured pattern, or a configured literal is a
    part of the message. *)
Definition omission_applies (lo : logging.TFLoggerOpts) (msg : string)
    (keys : list string) : Prop :=
  (∃ k, k ∈ logging.OmitLogWithFieldKeys lo ∧ k ∈ keys)
  ∨ (∃ r w, r ∈ logging.OmitLogWithMessageRegexes lo
            ∧ Matches r w ∧ part_of w (chars msg))
  ∨ (∃ s, s ∈ logging.OmitLogWithMessageStrings lo
          ∧ part_of (chars s) (chars msg)).

(** The field keys an emit operation hands to the omission check: those
    bound to the logger, then those of the call. *)
Definition entry_keys (logger : hclog.Logger)
    (additionalFields : list hclogutils.Fields) : list string :=
  hclogutils.ArgsToKeys (hclog.ImpliedArgs logger)
  ++ hclogutils.ArgsToKeys (hclogutils.MapsToArgs additionalFields).

(** No masking rule of the store has an occurrence in the message. *)
Definition nothing_to_mask (lo : logging.TFLoggerOpts) (msg : string) : Prop :=
  (∀ r w, r ∈ logging.MaskMessageRegexes lo → Matches r w →
          ¬ part_of w (chars msg))
  ∧ (∀ s, s ∈ logging.MaskMessageStrings lo → ¬ part_of (chars s) (chars msg)).

(** A sequence of operations run one after the other, each on the context
    the previous one returned. *)
Fixpoint run_all (ops : list Operation) (ctx : logging.Context) : M logging.Context :=
  match ops with
  | [] => ret ctx
  | op :: rest => do ctx' <- run op ctx; run_all rest ctx'
  end.

(** The rules of the category [c] that the policy extensions of a sequence
    give, in the order of the sequence. *)
Fixpoint added (c : Category) (ops : list Operation) : list Rule :=
  match ops with
  | [] => []
  | DoExtend x :: rest =>
      (if decide (c = category_of x) then given x else []) ++ added c rest
  | _ :: rest => added c rest
  end.


(** The number of emit operations in a sequence. *)
Fixpoint emits (ops : list Operation) : nat :=
  match ops with
  | [] => 0
  | DoEmit _ _ _ :: rest => S (emits rest)
  | _ :: rest => emits rest
  end.

(** ** Properties of the registry and of the facade *)

Lemma emit_unfold e ctx msg additionalFields :
  emit e ctx msg additionalFields =
  match logging.GetSDKRootLogger ctx with
  | None => ret tt
  | Some logger =>
      let o := tfsdklog.omitOrMask ctx logger msg additionalFields in
      if tfsdklog.shouldOmit o then ret tt
      else Log (tfsdklog.after logger o) (level_of e)
             (tfsdklog.message o) (tfsdklog.additionalArgs o)
  end.
Proof. destruct e; reflexivity. Qed.

(** C9: on a context with no SDK root logger, [SetField] returns the very
    context it was given, so that no binding is added and the lookup of the
    SDK root logger still finds none. *)
Theorem SetField_without_root_logger ctx key value :
  logging.GetSDKRootLogger ctx = None →
  tfsdklog.SetField ctx key value = ctx
  ∧ logging.GetSDKRootLogger (tfsdklog.SetField ctx key value) = None.
Proof.
  intros Hnone. unfold tfsdklog.SetField. rewrite Hnone. split; [done | exact Hnone].
Qed.

Lemma SetField_without_root_logger_witness :
  tfsdklog.SetField context.Background "user" (hclog.VString "a")
    = context.Background
  ∧ logging.GetSDKRootLogger
      (tfsdklog.SetField context.Background "user" (hclog.VString "a")) = None.
Proof. apply SetField_without_root_logger. reflexivity. Defined.

(** C3: on a context with no SDK root logger, each of the five emit
    operations returns at once: the state, and with it the list of records
    written to the sink, is the one it started from. *)
Theorem emit_without_root_logger e ctx msg additionalFields st :
  logging.GetSDKRootLogger ctx = None →
  emit e ctx msg additionalFields st = (tt, st).
Proof. intros Hnone. rewrite emit_unfold, Hnone. reflexivity. Qed.

Lemma emit_without_root_logger_witness :
  emit EInfo context.Background "login" [] {| options := ∅; written := [] |}
  = (tt, {| options := ∅; written := [] |}).
Proof. apply emit_without_root_logger. reflexivity. Defined.

(** *** The context carrier *)

Lemma Value_WithValue {V} (ctx : context.Context V) k v k' :
  context.Value (context.WithValue ctx k v) k'
  = if decide (k = k') then Some v else context.Value ctx k'.
Proof. reflexivity. Qed.

Lemma Value_WithValue_ne {V} (ctx : context.Context V) k v k' :
  k ≠ k' → context.Value (context.WithValue ctx k v) k' = context.Value ctx k'.
Proof. intros Hne. rewrite Value_WithValue. by destruct (decide (k = k')). Qed.

Lemma extend_wraps x ctx :
  extend x ctx =
  context.WithValue ctx context.SDKRootTFLoggerOptsKey
    (logging.AStore (logging.GetSDKRootTFLoggerOpts (extend x ctx))).
Proof. destruct x; reflexivity. Qed.

Lemma store_absent_is_empty (ctx : logging.Context) :
  context.Value ctx context.SDKRootTFLoggerOptsKey = None →
  logging.GetSDKRootTFLoggerOpts ctx = logging.empty.
Proof.
  intros Hnone. unfold logging.GetSDKRootTFLoggerOpts, logging.get_store.
  by rewrite Hnone.
Qed.

Lemma rules_extend x ctx c :
  rules c (logging.GetSDKRootTFLoggerOpts (extend x ctx))
  = if decide (c = category_of x)
    then rules c (logging.GetSDKRootTFLoggerOpts ctx) ++ given x
    else rules c (logging.GetSDKRootTFLoggerOpts ctx).
Proof.
  destruct x, c; cbn; try reflexivity; apply fmap_app.
Qed.

(** C5: each of the six policy-extension operations reads the store of the
    context (the empty store when the slot is absent), appends the given
    rules to the rule set of its own category and to no other, and returns
    a context that wraps the one it was given: every other slot reads as
    before, and the context passed in keeps the store it had.  Two
    extensions made from one starting context therefore each hold the
    starting rules and their own, not the other's. *)
Theorem policy_extension_is_additive_and_pure x y ctx c :
  let before := logging.GetSDKRootTFLoggerOpts ctx in
  (context.Value ctx context.SDKRootTFLoggerOptsKey = None →
   before = logging.empty)
  ∧ rules c (logging.GetSDKRootTFLoggerOpts (extend x ctx))
    = (if decide (c = category_of x) then rules c before ++ given x
       else rules c before)
  ∧ (∃ extended, extend x ctx
       = context.WithValue ctx context.SDKRootTFLoggerOptsKey
           (logging.AStore extended))
  ∧ (∀ k, k ≠ context.SDKRootTFLoggerOptsKey →
       context.Value (extend x ctx) k = context.Value ctx k)
  ∧ rules c (logging.GetSDKRootTFLoggerOpts (extend y ctx))
    = (if decide (c = category_of y) then rules c before ++ given y
       else rules c before).
Proof.
  cbn zeta. split; [apply store_absent_is_empty |].
  split; [apply rules_extend |].
  split; [eexists; apply extend_wraps |].
  split; [| apply rules_extend].
  intros k Hk. rewrite extend_wraps. by apply Value_WithValue_ne.
Qed.

(** *** Frame of the SDK operations *)

Lemma emit_keeps_options e ctx msg additionalFields st :
  options (emit e ctx msg additionalFields st).2 = options st.
Proof.
  rewrite emit_unfold. destruct (logging.GetSDKRootLogger ctx) as [logger|]; [| done].
  cbn zeta. destruct (tfsdklog.shouldOmit _); [done |].
  unfold Log. by destruct (hclog.enabled _ _).
Qed.

Lemma run_wraps op ctx st :
  (run op ctx st).1 = ctx
  ∨ ∃ k v, sdk_slot k = true ∧ (run op ctx st).1 = context.WithValue ctx k v.
Proof.
  destruct op as [key value | e msg fields | x]; cbn.
  - unfold tfsdklog.SetField. destruct (logging.GetSDKRootLogger ctx); [| by left].
    right. eexists _, _. split; [| reflexivity]. reflexivity.
  - left. unfold bind. by destruct (emit e ctx msg fields st).
  - right. rewrite extend_wraps. eexists _, _. split; [| reflexivity]. reflexivity.
Qed.

Lemma run_keeps_options op ctx st : options (run op ctx st).2 = options st.
Proof.
  destruct op as [key value | e msg fields | x]; cbn; [done | | done].
  unfold bind. pose proof (emit_keeps_options e ctx msg fields st) as Hkeep.
  by destruct (emit e ctx msg fields st).
Qed.

Lemma sdk_alike_logger ctx1 ctx2 :
  sdk_alike ctx1 ctx2 →
  logging.GetSDKRootLogger ctx1 = logging.GetSDKRootLogger ctx2.
Proof.
  intros Halike. unfold logging.GetSDKRootLogger, logging.get_logger.
  by rewrite (Halike context.SDKRootLoggerKey).
Qed.

Lemma sdk_alike_store ctx1 ctx2 :
  sdk_alike ctx1 ctx2 →
  logging.GetSDKRootTFLoggerOpts ctx1 = logging.GetSDKRootTFLoggerOpts ctx2.
Proof.
  intros Halike. unfold logging.GetSDKRootTFLoggerOpts, logging.get_store.
  by rewrite (Halike context.SDKRootTFLoggerOptsKey).
Qed.

Lemma sdk_alike_WithValue ctx1 ctx2 k v :
  sdk_alike ctx1 ctx2 →
  sdk_alike (context.WithValue ctx1 k v) (context.WithValue ctx2 k v).
Proof.
  intros Halike k' Hk'. rewrite !Value_WithValue.
  destruct (decide (k = k')); [done | by apply Halike].
Qed.

Lemma emit_reads_sdk_slots e ctx1 ctx2 msg additionalFields :
  sdk_alike ctx1 ctx2 →
  emit e ctx1 msg additionalFields = emit e ctx2 msg additionalFields.
Proof.
  intros Halike. rewrite !emit_unfold, (sdk_alike_logger _ _ Halike).
  destruct (logging.GetSDKRootLogger ctx2) as [logger|]; [| done].
  unfold tfsdklog.omitOrMask. by rewrite (sdk_alike_store _ _ Halike).
Qed.

Lemma run_reads_sdk_slots op ctx1 ctx2 st :
  sdk_alike ctx1 ctx2 →
  sdk_alike (run op ctx1 st).1 (run op ctx2 st).1
  ∧ (run op ctx1 st).2 = (run op ctx2 st).2.
Proof.
  intros Halike. destruct op as [key value | e msg fields | x]; cbn.
  - split; [| done]. unfold tfsdklog.SetField.
    rewrite (sdk_alike_logger _ _ Halike).
    destruct (logging.GetSDKRootLogger ctx2); [| done].
    by apply sdk_alike_WithValue.
  - unfold bind. rewrite (emit_reads_sdk_slots e _ _ msg fields Halike).
    by destruct (emit e ctx2 msg fields st).
  - split; [| done].
    destruct x; cbn;
      unfold tfsdklog.OmitLogWithFieldKeys, tfsdklog.OmitLogWithMessageRegexes,
        tfsdklog.OmitLogWithMessageStrings, tfsdklog.MaskFieldValuesWithFieldKeys,
        tfsdklog.MaskMessageRegexes, tfsdklog.MaskMessageStrings;
      cbn zeta; rewrite (sdk_alike_store _ _ Halike);
      by apply sdk_alike_WithValue.
Qed.

(** C10: [SetField], the five emit operations and the six policy-extension
    operations read and write the SDK slots only.  Whatever the operation,
    the provider's logger, options and policy-store slots read in the
    resulting context as in the input context, no cell of logger options is
    written, and the result is the same on any two contexts that read alike
    in the SDK slots. *)
Theorem sdk_operations_leave_provider_slots op ctx st :
  (∀ k, provider_slot k = true →
        context.Value (run op ctx st).1 k = context.Value ctx k)
  ∧ logging.GetProviderRootLogger (run op ctx st).1
    = logging.GetProviderRootLogger ctx
  ∧ logging.GetProviderRootLoggerOptions (run op ctx st).1
    = logging.GetProviderRootLoggerOptions ctx
  ∧ logging.GetProviderRootTFLoggerOpts (run op ctx st).1
    = logging.GetProviderRootTFLoggerOpts ctx
  ∧ options (run op ctx st).2 = options st
  ∧ (∀ ctx', sdk_alike ctx ctx' →
       sdk_alike (run op ctx st).1 (run op ctx' st).1
       ∧ (run op ctx st).2 = (run op ctx' st).2).
Proof.
  assert (Hframe : ∀ k, provider_slot k = true →
            context.Value (run op ctx st).1 k = context.Value ctx k).
  { intros k Hk. destruct (run_wraps op ctx st) as [-> | (k' & v & Hsdk & ->)]; [done |].
    apply Value_WithValue_ne. intros ->. by destruct k. }
  split; [exact Hframe |].
  unfold logging.GetProviderRootLogger, logging.GetProviderRootLoggerOptions,
    logging.GetProviderRootTFLoggerOpts, logging.get_logger, logging.get_options,
    logging.get_store.
  rewrite !Hframe by done.
  repeat split; try done.
  - apply run_keeps_options.
  - by apply run_reads_sdk_slots.
  - by apply run_reads_sdk_slots.
Qed.

(** *** The heap of logger options *)

Lemma alloc_fresh o st : options st !! (alloc o st).1 = None.
Proof. apply not_elem_of_dom, is_fresh. Qed.

Lemma alloc_lookup o st : options (alloc o st).2 !! (alloc o st).1 = Some o.
Proof. apply lookup_insert_eq. Qed.

Lemma alloc_others o st q :
  q ≠ (alloc o st).1 → options (alloc o st).2 !! q = options st !! q.
Proof. intros Hne. cbn. by rewrite lookup_insert_ne. Qed.

Lemma alloc_written o st : written (alloc o st).2 = written st.
Proof. reflexivity. Qed.

Lemma NewRootLogger_without_sink role ctx opts st :
  logging.GetSink ctx = None →
  let name := resolved_name role (logging.ApplyLoggerOpts opts) in
  let level :=
    if decide (logging.Level (logging.ApplyLoggerOpts opts) = hclog.NoLevel)
    then hclog.Trace else logging.Level (logging.ApplyLoggerOpts opts) in
  let o := {|
    hclog.Name := name;
    hclog.Level := level;
    hclog.JSONFormat := true;
    hclog.IndependentLevels := true;
    hclog.IncludeLocation := logging.IncludeLocation (logging.ApplyLoggerOpts opts);
    hclog.DisableTime := negb (logging.IncludeTime (logging.ApplyLoggerOpts opts));
    hclog.Output := logging.Output (logging.ApplyLoggerOpts opts);
    hclog.AdditionalLocationOffset :=
      logging.AdditionalLocationOffset (logging.ApplyLoggerOpts opts) |} in
  root_logger_options role (NewRootLogger role ctx opts st).1
    = Some (alloc o st).1
  ∧ root_logger role (NewRootLogger role ctx opts st).1 = Some (hclog.New o)
  ∧ (NewRootLogger role ctx opts st).2 = (alloc o st).2.
Proof.
  intros Hsink. cbn zeta.
  assert (Hload : ∀ o' : hclog.LoggerOptions,
            load (alloc o' st).1 (alloc o' st).2 = (o', (alloc o' st).2)).
  { intros o'. unfold load. by rewrite alloc_lookup. }
  unfold resolved_name.
  destruct role; cbn [NewRootLogger root_logger root_logger_options default_name];
    unfold tfsdklog.NewRootSDKLogger, tfsdklog.NewRootProviderLogger;
    rewrite Hsink; cbn zeta; unfold bind;
    generalize (logging.ApplyLoggerOpts opts); intros [n l il off out it];
    cbn [logging.Name logging.Level];
    destruct (decide (n = "")) as [->|Hn];
    cbn [logging.set_Name logging.Name logging.Level];
    destruct (decide (l = hclog.NoLevel)) as [->|Hl];
    cbn -[alloc load];
    match goal with
    | |- context [alloc ?o' st] =>
        pose proof (Hload o') as Hld; destruct (alloc o' st) as [p st'] eqn:Halloc;
        cbn [fst snd] in Hld; rewrite Hld
    end; done.
Qed.

(** C4: on a context that carries no host sink, [NewRootSDKLogger] and
    [NewRootProviderLogger] store options whose name is the caller's, or the
    role's default name when the caller gave none; whose level is the
    caller's, or [Trace] when the caller gave none; with JSON output and
    independent levels switched on; and with the caller's location flag,
    time flag (stored as its negation, [DisableTime]), location offset and
    output target. *)
Theorem root_logger_options_without_sink role ctx opts st :
  logging.GetSink ctx = None →
  let given_ := logging.ApplyLoggerOpts opts in
  let result := NewRootLogger role ctx opts st in
  ∃ p o,
    root_logger_options role result.1 = Some p
    ∧ options result.2 !! p = Some o
    ∧ hclog.Name o
      = (if decide (logging.Name given_ = "") then default_name role
         else logging.Name given_)
    ∧ hclog.Level o
      = (if decide (logging.Level given_ = hclog.NoLevel) then hclog.Trace
         else logging.Level given_)
    ∧ hclog.JSONFormat o = true
    ∧ hclog.IndependentLevels o = true
    ∧ hclog.IncludeLocation o = logging.IncludeLocation given_
    ∧ hclog.DisableTime o = negb (logging.IncludeTime given_)
    ∧ hclog.AdditionalLocationOffset o = logging.AdditionalLocationOffset given_
    ∧ hclog.Output o = logging.Output given_.
Proof.
  intros Hsink given_ result.
  destruct (NewRootLogger_without_sink role ctx opts st Hsink) as (Hp & _ & Hst).
  eexists _, _. split; [exact Hp |]. split.
  { subst result. rewrite Hst. apply alloc_lookup. }
  repeat split.
Qed.

Lemma root_logger_options_without_sink_witness :
  let result :=
    NewRootLogger SDK context.Background [] {| options := ∅; written := [] |} in
  ∃ p o,
    root_logger_options SDK result.1 = Some p
    ∧ options result.2 !! p = Some o
    ∧ hclog.Name o = "sdk"
    ∧ hclog.Level o = hclog.Trace
    ∧ hclog.JSONFormat o = true
    ∧ hclog.IndependentLevels o = true
    ∧ hclog.IncludeLocation o = false
    ∧ hclog.DisableTime o = true
    ∧ hclog.AdditionalLocationOffset o = 0%Z
    ∧ hclog.Output o = None.
Proof.
  exact (root_logger_options_without_sink SDK context.Background []
           {| options := ∅; written := [] |} eq_refl).
Defined.

Lemma NewRootLogger_with_sink role ctx opts st sink p o :
  logging.GetSink ctx = Some sink →
  logging.GetSinkOptions ctx = Some p →
  options st !! p = Some o →
  let name := resolved_name role (logging.ApplyLoggerOpts opts) in
  let level := logging.Level (logging.ApplyLoggerOpts opts) in
  let q := (alloc o st).1 in
  root_logger_options role (NewRootLogger role ctx opts st).1 = Some q
  ∧ root_logger role (NewRootLogger role ctx opts st).1
    = Some (if decide (level ≠ hclog.NoLevel)
            then hclog.SetLevel (hclog.Named sink name) level
            else hclog.Named sink name)
  ∧ options (NewRootLogger role ctx opts st).2
    = <[q := if decide (level ≠ hclog.NoLevel)
             then hclog.set_Level level (hclog.set_Name name o)
             else hclog.set_Name name o]> (options st)
  ∧ written (NewRootLogger role ctx opts st).2 = written st.
Proof.
  intros Hsink Hopts Ho. cbn zeta. unfold resolved_name.
  destruct role; cbn [NewRootLogger root_logger root_logger_options default_name];
    unfold tfsdklog.NewRootSDKLogger, tfsdklog.NewRootProviderLogger;
    rewrite Hsink, Hopts; cbn zeta;
    unfold bind, hclogutils.LoggerOptionsCopy, bind, load; rewrite Ho;
    generalize (logging.ApplyLoggerOpts opts); intros [n l il off out it];
    cbn [logging.Name logging.Level default];
    destruct (decide (n = "")) as [->|Hn];
    cbn [logging.set_Name logging.Name logging.Level];
    destruct (decide (l ≠ hclog.NoLevel)) as [Hl|Hl];
    cbn; rewrite ?alter_insert_eq; done.
Qed.

(** C6: on a context that carries a host sink with its recorded options,
    [NewRootSDKLogger] and [NewRootProviderLogger] store a copy of those
    options in which the name is overridden, the level is overridden only
    when the caller gave one, and every other field is the sink's.  The copy
    lives in a cell of its own: the cell was free before the call, it is not
    the sink's cell, every other cell (the sink's among them) holds what it
    held, and a later write to the copy leaves the sink's options alone. *)
Theorem root_logger_options_copy_sink role ctx opts st sink p o :
  logging.GetSink ctx = Some sink →
  logging.GetSinkOptions ctx = Some p →
  options st !! p = Some o →
  let given_ := logging.ApplyLoggerOpts opts in
  let result := NewRootLogger role ctx opts st in
  ∃ q o',
    root_logger_options role result.1 = Some q
    ∧ options result.2 !! q = Some o'
    ∧ hclog.Name o'
      = (if decide (logging.Name given_ = "") then default_name role
         else logging.Name given_)
    ∧ hclog.Level o'
      = (if decide (logging.Level given_ = hclog.NoLevel) then hclog.Level o
         else logging.Level given_)
    ∧ hclog.Output o' = hclog.Output o
    ∧ hclog.JSONFormat o' = hclog.JSONFormat o
    ∧ hclog.IncludeLocation o' = hclog.IncludeLocation o
    ∧ hclog.AdditionalLocationOffset o' = hclog.AdditionalLocationOffset o
    ∧ hclog.DisableTime o' = hclog.DisableTime o
    ∧ hclog.IndependentLevels o' = hclog.IndependentLevels o
    ∧ q ≠ p
    ∧ options st !! q = None
    ∧ (∀ r, r ≠ q → options result.2 !! r = options st !! r)
    ∧ options result.2 !! p = Some o
    ∧ (∀ f, options (update q f result.2).2 !! p = Some o).
Proof.
  intros Hsink Hopts Ho given_ result.
  destruct (NewRootLogger_with_sink role ctx opts st sink p o Hsink Hopts Ho)
    as (Hq & _ & Hheap & _).
  fold result in Hq, Hheap. fold given_ in Hheap.
  pose proof (alloc_fresh o st) as Hfresh.
  set (q := (alloc o st).1) in *.
  assert (Hqp : q ≠ p) by (intros ->; congruence).
  eexists q, _. split; [exact Hq |].
  split; [rewrite Hheap; apply lookup_insert_eq |].
  unfold resolved_name.
  destruct (decide (logging.Level given_ = hclog.NoLevel)) as [Hl|Hl].
  - rewrite decide_False by (intros Hne; by apply Hne).
    repeat split; try done.
    + intros r Hr. rewrite Hheap. by apply lookup_insert_ne.
    + rewrite Hheap, lookup_insert_ne; done.
    + intros f. cbn. rewrite lookup_alter_ne, Hheap, lookup_insert_ne; done.
  - rewrite decide_True by done.
    repeat split; try done.
    + intros r Hr. rewrite Hheap. by apply lookup_insert_ne.
    + rewrite Hheap, lookup_insert_ne; done.
    + intros f. cbn. rewrite lookup_alter_ne, Hheap, lookup_insert_ne; done.
Qed.

Lemma root_logger_options_copy_sink_witness :
  let result :=
    NewRootLogger SDK host.ctx [logging.set_Level hclog.Debug] host.state in
  ∃ q o',
    root_logger_options SDK result.1 = Some q
    ∧ options result.2 !! q = Some o'
    ∧ hclog.Name o' = "sdk"
    ∧ hclog.Level o' = hclog.Debug
    ∧ hclog.Output o' = Some hclog.Stderr
    ∧ hclog.JSONFormat o' = true
    ∧ hclog.IncludeLocation o' = true
    ∧ hclog.AdditionalLocationOffset o' = 1%Z
    ∧ hclog.DisableTime o' = false
    ∧ hclog.IndependentLevels o' = true
    ∧ q ≠ 0
    ∧ options host.state !! q = None
    ∧ (∀ r, r ≠ q → options result.2 !! r = options host.state !! r)
    ∧ options result.2 !! 0 = Some host.sink_options
    ∧ (∀ f, options (update q f result.2).2 !! 0 = Some host.sink_options).
Proof.
  exact (root_logger_options_copy_sink SDK host.ctx
           [logging.set_Level hclog.Debug] host.state
           (hclog.New host.sink_options) 0 host.sink_options
           eq_refl eq_refl eq_refl).
Defined.

(** *** Omission and masking in the facade *)

Lemma omitOrMask_omitted ctx logger msg additionalFields :
  logging.ShouldOmit (logging.GetSDKRootTFLoggerOpts ctx) msg
    (hclog.ImpliedArgs logger) (hclogutils.MapsToArgs additionalFields) = true →
  tfsdklog.omitOrMask ctx logger msg additionalFields
  = {| tfsdklog.message := msg;
       tfsdklog.impliedArgs := hclog.ImpliedArgs logger;
       tfsdklog.additionalArgs := [];
       tfsdklog.shouldOmit := true |}.
Proof. intros Homit. unfold tfsdklog.omitOrMask. by rewrite Homit. Qed.

Lemma omitOrMask_masked ctx logger msg additionalFields :
  logging.ShouldOmit (logging.GetSDKRootTFLoggerOpts ctx) msg
    (hclog.ImpliedArgs logger) (hclogutils.MapsToArgs additionalFields) = false →
  tfsdklog.omitOrMask ctx logger msg additionalFields
  = let masked :=
      logging.ApplyMask (logging.GetSDKRootTFLoggerOpts ctx) msg
        (hclog.ImpliedArgs logger) (hclogutils.MapsToArgs additionalFields) in
    {| tfsdklog.message := masked.1.1;
       tfsdklog.impliedArgs := masked.1.2;
       tfsdklog.additionalArgs := masked.2;
       tfsdklog.shouldOmit := false |}.
Proof. intros Homit. unfold tfsdklog.omitOrMask. by rewrite Homit. Qed.

(** C1: when the policy store of the context omits the entry, every emit
    operation decides so before any masking: [omitOrMask] reports the
    omission with the message cell still holding the message as passed and
    with no argument list, and the operation returns with nothing written to
    the sink, whatever the masking rules of the store are. *)
Theorem omission_precedes_masking e ctx logger msg additionalFields st :
  logging.GetSDKRootLogger ctx = Some logger →
  logging.ShouldOmit (logging.GetSDKRootTFLoggerOpts ctx) msg
    (hclog.ImpliedArgs logger) (hclogutils.MapsToArgs additionalFields) = true →
  tfsdklog.omitOrMask ctx logger msg additionalFields
  = {| tfsdklog.message := msg;
       tfsdklog.impliedArgs := hclog.ImpliedArgs logger;
       tfsdklog.additionalArgs := [];
       tfsdklog.shouldOmit := true |}
  ∧ emit e ctx msg additionalFields st = (tt, st).
Proof.
  intros Hlogger Homit. split; [by apply omitOrMask_omitted |].
  rewrite emit_unfold, Hlogger. cbn zeta.
  by rewrite (omitOrMask_omitted _ _ _ _ Homit).
Qed.

Lemma omission_precedes_masking_witness :
  (logging.ApplyMask (logging.GetSDKRootTFLoggerOpts standalone.omit_and_mask)
     "secret login" [] (hclogutils.MapsToArgs standalone.login)).1.1
  = "*** login"
  ∧ tfsdklog.omitOrMask standalone.omit_and_mask standalone.logger
      "secret login" standalone.login
    = {| tfsdklog.message := "secret login";
         tfsdklog.impliedArgs := [];
         tfsdklog.additionalArgs := [];
         tfsdklog.shouldOmit := true |}
  ∧ emit EWarn standalone.omit_and_mask "secret login" standalone.login
      standalone.state
    = (tt, standalone.state).
Proof.
  split; [reflexivity |].
  exact (omission_precedes_masking EWarn standalone.omit_and_mask
           standalone.logger "secret login" standalone.login standalone.state
           eq_refl eq_refl).
Defined.

(** *** Keys of merged field maps *)

Lemma ArgsToKeys_MapToArgs (m : gmap string hclog.Value) :
  hclogutils.ArgsToKeys (hclogutils.MapToArgs m) = (map_to_list m).*1.
Proof.
  unfold hclogutils.MapToArgs.
  induction (map_to_list m) as [|[k v] l IH]; [done |].
  cbn. by rewrite IH.
Qed.

Lemma merged_lookup_is_Some (maps : list (gmap string hclog.Value)) acc k :
  is_Some (fold_left (λ merged m, m ∪ merged) maps acc !! k)
  ↔ is_Some (acc !! k) ∨ ∃ m, m ∈ maps ∧ is_Some (m !! k).
Proof.
  revert acc. induction maps as [|m maps IH]; intros acc; cbn.
  - split; [by left |]. intros [? | (m & Hm & _)]; [done |].
    by apply elem_of_nil in Hm.
  - rewrite IH, lookup_union_is_Some. split.
    + intros [[Hm | Hacc] | (m' & Hm' & Hk)].
      * right. exists m. split; [left | done].
      * by left.
      * right. exists m'. split; [by right | done].
    + intros [Hacc | (m' & Hm' & Hk)].
      * left. by right.
      * apply elem_of_cons in Hm' as [-> | Hm'].
        -- left. by left.
        -- right. by exists m'.
Qed.

Lemma MapsToArgs_keys (maps : list (gmap string hclog.Value)) k :
  k ∈ hclogutils.ArgsToKeys (hclogutils.MapsToArgs maps)
  ↔ ∃ m, m ∈ maps ∧ is_Some (m !! k).
Proof.
  unfold hclogutils.MapsToArgs. rewrite ArgsToKeys_MapToArgs.
  rewrite list_elem_of_fmap. split.
  - intros ([k' v] & -> & Hin). apply elem_of_map_to_list in Hin.
    apply mk_is_Some, merged_lookup_is_Some in Hin as [Hempty | Hmaps]; [| done].
    rewrite lookup_empty in Hempty. by destruct Hempty.
  - intros Hmaps.
    assert (is_Some (fold_left (λ merged m, m ∪ merged) maps ∅ !! k)) as [v Hv].
    { apply merged_lookup_is_Some. by right. }
    exists (k, v). split; [done |]. by apply elem_of_map_to_list.
Qed.

Lemma ShouldOmit_field_key lo msg implied additional k :
  k ∈ logging.OmitLogWithFieldKeys lo →
  k ∈ hclogutils.ArgsToKeys implied ++ hclogutils.ArgsToKeys additional →
  logging.ShouldOmit lo msg implied additional = true.
Proof.
  intros Hrule Hfield. unfold logging.ShouldOmit.
  apply orb_true_iff. left. apply orb_true_iff. left.
  apply existsb_exists. exists k. split; [by apply list_elem_of_In |].
  by apply bool_decide_eq_true.
Qed.

(** C2: once [OmitLogWithFieldKeys] has added the key [k] on a context,
    every emit operation on the resulting context whose merged field set (the
    permanently-bound fields of the logger with the fields of the call) has
    the key [k] writes nothing to the sink, whatever the message. *)
Theorem omitted_field_key_is_never_emitted e ctx keys k msg additionalFields st :
  k ∈ keys →
  has_field (tfsdklog.OmitLogWithFieldKeys ctx keys) additionalFields k →
  emit e (tfsdklog.OmitLogWithFieldKeys ctx keys) msg additionalFields st
  = (tt, st).
Proof.
  intros Hk Hfield. rewrite emit_unfold.
  destruct (logging.GetSDKRootLogger _) as [logger|] eqn:Hlogger; [| done].
  cbn zeta. rewrite omitOrMask_omitted; [done |].
  apply ShouldOmit_field_key with k.
  - cbn. apply elem_of_app. by right.
  - apply elem_of_app. destruct Hfield as [Hcall | (logger' & Hl' & Himplied)].
    + right. by apply MapsToArgs_keys.
    + left. congruence.
Qed.

Lemma omitted_field_key_is_never_emitted_witness :
  emit EInfo (tfsdklog.OmitLogWithFieldKeys standalone.ctx ["password"])
    "login" standalone.login standalone.state
  = (tt, standalone.state).
Proof.
  apply (omitted_field_key_is_never_emitted EInfo standalone.ctx
           ["password"] "password").
  - by left.
  - left. exists {[ "password" := hclog.VString "x"; "user" := hclog.VString "a" ]}.
    split; [by left |]. by eexists.
Defined.

Lemma ApplyMask_implied lo msg implied additional :
  (logging.ApplyMask lo msg implied additional).1.2 = implied.
Proof. reflexivity. Qed.

Lemma omitOrMask_implied ctx logger msg additionalFields :
  tfsdklog.impliedArgs (tfsdklog.omitOrMask ctx logger msg additionalFields)
  = hclog.ImpliedArgs logger.
Proof.
  unfold tfsdklog.omitOrMask.
  destruct (logging.ShouldOmit _ _ _ _); [done |].
  destruct (logging.ApplyMask _ _ _ _) as [[m i] a] eqn:Hmask. cbn.
  change i with (m, i, a).1.2. rewrite <- Hmask. apply ApplyMask_implied.
Qed.

Lemma after_omitOrMask ctx logger msg additionalFields :
  tfsdklog.after logger (tfsdklog.omitOrMask ctx logger msg additionalFields)
  = logger.
Proof.
  unfold tfsdklog.after. rewrite omitOrMask_implied. by destruct logger.
Qed.

(** C7: masking rewrites the message and the values of the fields of the
    call, never the permanently-bound fields of the logger.  After
    [omitOrMask] the slice of implied arguments holds what the logger had
    bound, so the logger is as it was, and a record written by an emit
    operation carries exactly those permanent fields, next to the message and
    the call's arguments as the policy left them, whatever masking rules the
    store holds. *)
Theorem masking_spares_permanent_fields e ctx logger msg additionalFields st :
  logging.GetSDKRootLogger ctx = Some logger →
  let o := tfsdklog.omitOrMask ctx logger msg additionalFields in
  tfsdklog.impliedArgs o = hclog.ImpliedArgs logger
  ∧ tfsdklog.after logger o = logger
  ∧ (written (emit e ctx msg additionalFields st).2 = written st
     ∨ ∃ entry,
         written (emit e ctx msg additionalFields st).2 = written st ++ [entry]
         ∧ hclog.entry_implied entry = hclog.ImpliedArgs logger
         ∧ hclog.entry_msg entry = tfsdklog.message o
         ∧ hclog.entry_args entry = tfsdklog.additionalArgs o).
Proof.
  intros Hlogger o.
  split; [apply omitOrMask_implied |]. split; [apply after_omitOrMask |].
  rewrite emit_unfold, Hlogger. cbn zeta. fold o.
  destruct (tfsdklog.shouldOmit o); [by left |].
  unfold Log. destruct (hclog.enabled _ _); [| by left].
  right. eexists. split; [reflexivity |]. cbn.
  split; [apply omitOrMask_implied | done].
Qed.

Lemma masking_spares_permanent_fields_witness :
  let ctx :=
    tfsdklog.MaskFieldValuesWithFieldKeys
      (tfsdklog.SetField standalone.ctx "token" (hclog.VString "t0p"))
      ["token"] in
  let logger := hclog.With standalone.logger "token" (hclog.VString "t0p") in
  let fields : list hclogutils.Fields := [ {[ "token" := hclog.VString "abc" ]} ] in
  let o := tfsdklog.omitOrMask ctx logger "req" fields in
  tfsdklog.additionalArgs o = [hclog.VString "token"; hclog.VString "***"]
  ∧ tfsdklog.impliedArgs o = [hclog.VString "token"; hclog.VString "t0p"]
  ∧ tfsdklog.after logger o = logger
  ∧ (written (emit EDebug ctx "req" fields standalone.state).2
       = written standalone.state
     ∨ ∃ entry,
         written (emit EDebug ctx "req" fields standalone.state).2
           = written standalone.state ++ [entry]
         ∧ hclog.entry_implied entry = [hclog.VString "token"; hclog.VString "t0p"]
         ∧ hclog.entry_msg entry = tfsdklog.message o
         ∧ hclog.entry_args entry = tfsdklog.additionalArgs o).
Proof.
  split; [reflexivity |].
  exact (masking_spares_permanent_fields EDebug
           (tfsdklog.MaskFieldValuesWithFieldKeys
              (tfsdklog.SetField standalone.ctx "token" (hclog.VString "t0p"))
              ["token"])
           (hclog.With standalone.logger "token" (hclog.VString "t0p"))
           "req" [ {[ "token" := hclog.VString "abc" ]} ] standalone.state
           eq_refl).
Defined.

(** *** Patterns: the derivative decides [Matches] *)

Lemma Matches_nil_nullable r : Matches r [] → regexp.nullable r = true.
Proof.
  intros H. remember [] as w eqn:Hw. induction H; cbn; try done.
  - apply app_eq_nil in Hw as [-> ->]. by rewrite IHMatches1, IHMatches2.
  - by rewrite IHMatches.
  - rewrite IHMatches by done. apply orb_true_r.
Qed.

Lemma nullable_Matches_nil r : regexp.nullable r = true → Matches r [].
Proof.
  induction r; cbn; intros H; try done.
  - constructor.
  - apply andb_true_iff in H as [H1 H2].
    change (@nil ascii) with (@nil ascii ++ []). constructor; auto.
  - apply orb_true_iff in H as [H | H]; [apply matches_alt_l | apply matches_alt_r]; auto.
  - constructor.
Qed.

Lemma Matches_star_cons r c w :
  Matches (regexp.Star r) (c :: w) →
  ∃ w1 w2, w = w1 ++ w2 ∧ Matches r (c :: w1) ∧ Matches (regexp.Star r) w2.
Proof.
  intros H. remember (regexp.Star r) as r' eqn:Hr. remember (c :: w) as cw eqn:Hcw.
  induction H; try discriminate.
  injection Hr as ->.
  destruct w1 as [|c' w1]; cbn in Hcw.
  - apply IHMatches2; done.
  - injection Hcw as -> <-. by exists w1, w2.
Qed.

Lemma deriv_Matches r c w : Matches (regexp.deriv c r) w ↔ Matches r (c :: w).
Proof.
  revert w. induction r as [| |c'| |r1 IH1 r2 IH2|r1 IH1 r2 IH2|r IH]; intros w; cbn.
  - split; inversion 1.
  - split; inversion 1.
  - destruct (Ascii.eqb_spec c c') as [->|Hne].
    + split; inversion 1; subst; constructor.
    + split; inversion 1; subst; done.
  - split; inversion 1; subst; constructor.
  - split.
    + intros H.
      assert (Hcat : Matches (regexp.Cat (regexp.deriv c r1) r2) w →
                     Matches (regexp.Cat r1 r2) (c :: w)).
      { inversion 1 as [| | |? ? w1 w2 H1 H2| | | |]; subst.
        apply IH1 in H1. change (c :: w1 ++ w2) with ((c :: w1) ++ w2).
        by constructor. }
      destruct (regexp.nullable r1) eqn:Hnull; [| by apply Hcat].
      inversion H; subst; [by apply Hcat |].
      change (c :: w) with ([] ++ c :: w). constructor.
      * by apply nullable_Matches_nil.
      * by apply IH2.
    + inversion 1 as [| | |? ? w1 w2 H1 H2 Hr Hw| | | |]; subst.
      destruct w1 as [|c1 w1]; cbn in Hw.
      * subst w2. rewrite (Matches_nil_nullable _ H1).
        apply matches_alt_r. by apply IH2.
      * injection Hw as -> <-.
        assert (Matches (regexp.Cat (regexp.deriv c r1) r2) (w1 ++ w2)).
        { constructor; [by apply IH1 | done]. }
        destruct (regexp.nullable r1); [by apply matches_alt_l | done].
  - split.
    + inversion 1; subst; [apply matches_alt_l; by apply IH1 | apply matches_alt_r; by apply IH2].
    + inversion 1; subst; [apply matches_alt_l; by apply IH1 | apply matches_alt_r; by apply IH2].
  - split.
    + inversion 1 as [| | |? ? w1 w2 H1 H2| | | |]; subst.
      apply IH in H1. change (c :: w1 ++ w2) with ((c :: w1) ++ w2).
      by constructor.
    + intros H. apply Matches_star_cons in H as (w1 & w2 & -> & H1 & H2).
      constructor; [by apply IH | done].
Qed.

Lemma longest_None r t :
  regexp.longest r t = None → no_span (Matches r) t.
Proof.
  revert r. induction t as [|c t IH]; intros r Hlong w Hw Hmatch; cbn in Hlong.
  - apply prefix_nil_inv in Hw as ->.
    apply Matches_nil_nullable in Hmatch. by rewrite Hmatch in Hlong.
  - destruct (regexp.longest (regexp.deriv c r) t) eqn:Hl; [done |].
    destruct (regexp.nullable r) eqn:Hnull; [done |].
    destruct w as [|c' w].
    + apply Matches_nil_nullable in Hmatch. congruence.
    + pose proof (prefix_cons_inv_1 _ _ _ _ Hw) as ->.
      apply prefix_cons_inv_2 in Hw. apply deriv_Matches in Hmatch.
      by apply (IH _ Hl w).
Qed.

Lemma longest_Some r t n :
  regexp.longest r t = Some n →
  n ≤ length t ∧ head_span (Matches r) t (take n t).
Proof.
  revert r n. induction t as [|c t IH]; intros r n; cbn.
  - destruct (regexp.nullable r) eqn:Hnull; [| done]. intros [= <-].
    split; [done |]. split; [done |]. split; [by apply nullable_Matches_nil |].
    intros w' Hw' _. by apply prefix_nil_inv in Hw' as ->.
  - destruct (regexp.longest (regexp.deriv c r) t) as [m|] eqn:Hlong.
    + intros [= <-]. apply IH in Hlong as (Hle & Hpre & Hm & Hmax).
      split; [cbn; lia |]. cbn. split; [by apply prefix_cons |].
      split; [by apply deriv_Matches |].
      intros [|c' w'] Hw' Hmatch; [cbn; lia |].
      pose proof (prefix_cons_inv_1 _ _ _ _ Hw') as ->.
      apply prefix_cons_inv_2 in Hw'. apply deriv_Matches in Hmatch.
      specialize (Hmax w' Hw' Hmatch). cbn in *. lia.
    + destruct (regexp.nullable r) eqn:Hnull; [| done]. intros [= <-].
      split; [cbn; lia |]. cbn. split; [apply prefix_nil |].
      split; [by apply nullable_Matches_nil |].
      intros [|c' w'] Hw' Hmatch; [done |].
      pose proof (prefix_cons_inv_1 _ _ _ _ Hw') as ->.
      apply prefix_cons_inv_2 in Hw'. apply deriv_Matches in Hmatch.
      by destruct (longest_None _ _ Hlong w' Hw').
Qed.

(** *** Literals: the prefix test decides the occurrence *)

Lemma has_prefix_prefix old t :
  strings.has_prefix old t = true ↔ old `prefix_of` t.
Proof.
  revert t. induction old as [|a old IH]; intros t; cbn.
  - split; [intros _; apply prefix_nil | done].
  - destruct t as [|b t].
    + split; [done |]. intros H. by apply prefix_nil_not in H.
    + rewrite andb_true_iff, IH. destruct (Ascii.eqb_spec a b) as [->|Hne].
      * split; [intros [_ H]; by apply prefix_cons |].
        intros H. split; [done |]. by apply prefix_cons_inv_2 in H.
      * split; [by intros [? _] |].
        intros H. by apply prefix_cons_inv_1 in H.
Qed.

Lemma literal_span_Some old t n :
  strings.span old t = Some n →
  n ≤ length t ∧ head_span (λ w, w = old) t (take n t).
Proof.
  unfold strings.span. destruct (strings.has_prefix old t) eqn:Hpre; [| done].
  intros [= <-]. apply has_prefix_prefix in Hpre.
  pose proof (prefix_length _ _ Hpre) as Hlen. split; [done |].
  assert (take (length old) t = old) as ->.
  { destruct Hpre as [k ->]. by rewrite take_app_length. }
  split; [done |]. split; [done |]. by intros w' _ ->.
Qed.


(** *** The scanner replaces every occurrence *)

Section ScanCorrect.
Variable P : text → Prop.
Variable span : text → option nat.
Variable repl : text.
Hypothesis span_Some :
  ∀ t n, span t = Some n → n ≤ length t ∧ head_span P t (take n t).
Hypothesis span_None : ∀ t, span t = None → no_span P t.

Lemma scan_skip k adj t :
  k < length t →
  scanner.scan span repl (S k) adj t
  = scanner.scan span repl O true (drop (S k) t).
Proof.
  revert adj t. induction k as [|k IH]; intros adj [|c t] Hlen; cbn in Hlen; try lia.
  - reflexivity.
  - change (scanner.scan span repl (S (S k)) adj (c :: t))
      with (scanner.scan span repl (S k) true t).
    rewrite IH by lia. reflexivity.
Qed.

Lemma scan_unfold adj t :
  scanner.scan span repl O adj t
  = match span t with
    | Some (S n) => repl ++ scanner.scan span repl O true (drop (S n) t)
    | Some O =>
        (if adj then [] else repl)
          ++ match t with
             | [] => []
             | c :: t' => c :: scanner.scan span repl O false t'
             end
    | None =>
        match t with
        | [] => []
        | c :: t' => c :: scanner.scan span repl O false t'
        end
    end.
Proof.
  destruct t as [|c t]; cbn.
  - destruct (span []) as [[|n]|] eqn:Hspan; try done.
    apply span_Some in Hspan as [Hlen _]. cbn in Hlen. lia.
  - destruct (span (c :: t)) as [[|n]|] eqn:Hspan; try done.
    apply span_Some in Hspan as [Hlen _]. cbn in Hlen.
    f_equal. destruct n as [|n]; [done |]. apply scan_skip. lia.
Qed.



End ScanCorrect.



(** *** The message an emit operation forwards *)








(** Scenario C, and a pattern with two matches. *)
Example scenario_C :
  written (tfsdklog.Warn (tfsdklog.MaskMessageStrings standalone.ctx ["secret"])
             "contains secret token" [] standalone.state).2
  = [ {| hclog.entry_level := hclog.Warn;
         hclog.entry_name := "sdk";
         hclog.entry_msg := "contains *** token";
         hclog.entry_implied := [];
         hclog.entry_args := [];
         hclog.entry_output := None |} ].
Proof. reflexivity. Qed.

Example pattern_twice :
  written (tfsdklog.Info
             (tfsdklog.MaskMessageRegexes standalone.ctx
                [regexp.Alt (regexp.Lit (chars "foo")) (regexp.Lit (chars "bar"))])
             "banana foo apple bar" [] standalone.state).2
  = [ {| hclog.entry_level := hclog.Info;
         hclog.entry_name := "sdk";
         hclog.entry_msg := "banana *** apple ***";
         hclog.entry_implied := [];
         hclog.entry_args := [];
         hclog.entry_output := None |} ].
Proof. reflexivity. Qed.

(** *** [Replaced] determines its result *)

Section ReplacedFunctional.
Variable P : text → Prop.
Variable repl : text.

Lemma head_span_no_span t w : head_span P t w → no_span P t → False.
Proof. intros (Hpre & Hw & _) Hno. by apply (Hno w). Qed.

Lemma head_span_unique t w1 w2 :
  head_span P t w1 → head_span P t w2 → w1 = w2.
Proof.
  intros (Hpre1 & HP1 & Hmax1) (Hpre2 & HP2 & Hmax2).
  pose proof (Hmax1 w2 Hpre2 HP2). pose proof (Hmax2 w1 Hpre1 HP1).
  destruct (prefix_weak_total _ _ _ Hpre1 Hpre2) as [H12 | H21].
  - by apply prefix_length_eq.
  - symmetry. by apply prefix_length_eq.
Qed.

Lemma Replaced_functional adj t out1 out2 :
  Replaced P repl adj t out1 → Replaced P repl adj t out2 → out1 = out2.
Proof.
  intros H1. revert out2.
  induction H1 as [adj Hno | adj Hhead | adj c t out Hno _ IH
                  | adj c t out Hhead _ IH | adj w t out Hw Hhead _ IH];
    intros out2 H2; inversion H2; clear H2;
    repeat match goal with
    | H : [] = _ ++ _ |- _ => symmetry in H
    | H : _ ++ _ = [] |- _ => apply app_eq_nil in H as [? ?]
    | H : _ :: _ = _ ++ _ |- _ => symmetry in H
    end; subst; try done;
    try match goal with
    | H : ?w ++ ?t = _ :: _, H' : head_span P (?w ++ ?t) _ |- _ =>
        rewrite H in H'
    | H : ?w ++ ?t = _ :: _, H' : head_span P (_ :: _) _ |- _ =>
        rewrite <- H in H'
    | H : ?w ++ ?t = _ :: _, H' : no_span P (_ :: _) |- _ =>
        rewrite <- H in H'
    end;
    try match goal with
    | H : head_span P ?t _, H' : no_span P ?t |- _ =>
        destruct (head_span_no_span _ _ H H')
    | H : head_span P ?t ?w1, H' : head_span P ?t ?w2 |- _ =>
        pose proof (head_span_unique _ _ _ H H'); subst; try done
    end.
  - f_equal. by apply IH.
  - do 2 f_equal. by apply IH.
  - match goal with
    | Heq : ?w0 ++ _ = w ++ t, Hhead0 : head_span P (?w0 ++ _) ?w0 |- _ =>
        rewrite Heq in Hhead0;
        pose proof (head_span_unique _ _ _ Hhead Hhead0) as <-;
        apply app_inv_head in Heq as ->
    end.
    f_equal. by apply IH.
Qed.

End ReplacedFunctional.

Lemma Masks_functional rule m m1 m2 :
  Masks rule m m1 → Masks rule m m2 → m1 = m2.
Proof.
  intros H1 H2.
  pose proof (Replaced_functional _ _ _ _ _ _ H1 H2) as Heq.
  apply (f_equal of_chars) in Heq.
  by rewrite !String.string_of_list_ascii_of_string in Heq.
Qed.

(** *** Two occurrences of a literal *)

Section TwoOccurrences.
Variable old : text.
Variable repl : text.
Hypothesis old_not_empty : old ≠ [].

Lemma literal_scan_keep adj c t :
  ¬ old `prefix_of` (c :: t) →
  scanner.scan (strings.span old) repl O adj (c :: t)
  = c :: scanner.scan (strings.span old) repl O false t.
Proof.
  intros Hno. cbn. unfold strings.span at 1.
  destruct (strings.has_prefix old (c :: t)) eqn:Hpre; [| done].
  by apply has_prefix_prefix in Hpre.
Qed.

Lemma literal_scan_hit adj t :
  scanner.scan (strings.span old) repl O adj (old ++ t)
  = repl ++ scanner.scan (strings.span old) repl O true t.
Proof.
  rewrite (scan_unfold (λ w, w = old) _ _ (literal_span_Some old)).
  unfold strings.span at 1.
  assert (strings.has_prefix old (old ++ t) = true) as ->.
  { apply has_prefix_prefix. by exists t. }
  destruct old as [|c old'] eqn:Hold; [done |].
  cbn [length]. rewrite <- Hold.
  replace (S (length old')) with (length old) by (by rewrite Hold).
  by rewrite drop_app_length.
Qed.

Lemma literal_scan_adj adj adj' t :
  scanner.scan (strings.span old) repl O adj t
  = scanner.scan (strings.span old) repl O adj' t.
Proof.
  destruct t as [|c t]; cbn; unfold strings.span;
    destruct (strings.has_prefix old _); try done;
    by destruct old.
Qed.

Lemma literal_scan_gap adj gap rest :
  absent old gap rest →
  scanner.scan (strings.span old) repl O adj (gap ++ rest)
  = gap ++ scanner.scan (strings.span old) repl O adj rest.
Proof.
  revert adj. induction gap as [|c gap IH]; intros adj Habsent; [done |].
  cbn [app]. rewrite literal_scan_keep.
  - f_equal. rewrite (literal_scan_adj false adj). apply IH.
    intros g1 g2 -> Hg2. by apply (Habsent (c :: g1) g2).
  - by apply (Habsent [] (c :: gap)).
Qed.

Lemma literal_two_occurrences u v w :
  absent old u (old ++ v ++ old ++ w) →
  absent old v (old ++ w) →
  absent old w [] →
  scanner.replace_all (strings.span old) repl (u ++ old ++ v ++ old ++ w)
  = u ++ repl ++ v ++ repl ++ w.
Proof.
  intros Hu Hv Hw. unfold scanner.replace_all.
  assert (Hend : scanner.scan (strings.span old) repl O true w = w).
  { transitivity (w ++ scanner.scan (strings.span old) repl O true []).
    - rewrite <- literal_scan_gap by done. by rewrite app_nil_r.
    - cbn. unfold strings.span. destruct old; [done |]. cbn. apply app_nil_r. }
  rewrite literal_scan_gap by done. rewrite literal_scan_hit.
  rewrite literal_scan_gap by done. rewrite literal_scan_hit.
  by rewrite Hend.
Qed.

End TwoOccurrences.

Lemma chars_app (a b : string) : chars (a +:+ b) = chars a ++ chars b.
Proof.
  induction a as [|c a IH]; [done |].
  change (chars (String c (a +:+ b)) = chars (String c a) ++ chars b).
  cbn. by rewrite IH.
Qed.

Lemma of_chars_app (a b : text) : of_chars (a ++ b) = of_chars a +:+ of_chars b.
Proof.
  induction a as [|c a IH]; [done |].
  change (of_chars (c :: (a ++ b)) = String c (of_chars a +:+ of_chars b)).
  cbn. by rewrite IH.
Qed.

(** A message with two occurrences of a masked literal, and no other, has
    both replaced. *)
Lemma ReplaceAll_two_occurrences (s u v w : string) :
  s ≠ "" →
  absent (chars s) (chars u) (chars (s +:+ v +:+ s +:+ w)) →
  absent (chars s) (chars v) (chars (s +:+ w)) →
  absent (chars s) (chars w) [] →
  strings.ReplaceAll (u +:+ s +:+ v +:+ s +:+ w) s MaskToken
  = u +:+ MaskToken +:+ v +:+ MaskToken +:+ w.
Proof.
  intros Hs Hu Hv Hw. unfold strings.ReplaceAll.
  rewrite !chars_app in *.
  rewrite literal_two_occurrences; try done.
  - by rewrite !of_chars_app, !String.string_of_list_ascii_of_string.
  - intros Hnil. apply Hs. by destruct s.
Qed.

(** *** The scenarios of the specification *)

(** Scenario A: a root logger created with no host sink and no level logs
    at the most verbose level. *)
Example scenario_A :
  written (tfsdklog.Trace standalone.ctx "started" [] standalone.state).2
  = [ {| hclog.entry_level := hclog.Trace;
         hclog.entry_name := "sdk";
         hclog.entry_msg := "started";
         hclog.entry_implied := [];
         hclog.entry_args := [];
         hclog.entry_output := None |} ].
Proof. reflexivity. Qed.

(** Scenario B: an omitted field key gives no record. *)
Example scenario_B :
  written (tfsdklog.Info (tfsdklog.OmitLogWithFieldKeys standalone.ctx ["password"])
             "login" standalone.login standalone.state).2
  = [].
Proof. reflexivity. Qed.

(** Scenario D: a masked field key has its value replaced, its sibling is
    left as it is. *)
Example scenario_D :
  written (tfsdklog.Debug
             (tfsdklog.MaskFieldValuesWithFieldKeys standalone.ctx ["token"])
             "req"
             [ {[ "token" := hclog.VString "abc"; "id" := hclog.VString "1" ]} ]
             standalone.state).2
  = [ {| hclog.entry_level := hclog.Debug;
         hclog.entry_name := "sdk";
         hclog.entry_msg := "req";
         hclog.entry_implied := [];
         hclog.entry_args :=
           [hclog.VString "id"; hclog.VString "1";
            hclog.VString "token"; hclog.VString "***"];
         hclog.entry_output := None |} ].
Proof. reflexivity. Qed.

(** Scenario E: two extensions of one context do not see each other's
    rule. *)
Example scenario_E :
  let ctx1 := tfsdklog.OmitLogWithMessageStrings standalone.ctx ["alpha"] in
  let ctx2 := tfsdklog.MaskMessageStrings standalone.ctx ["beta"] in
  logging.GetSDKRootTFLoggerOpts ctx1
    = logging.WithOmitLogWithMessageStrings ["alpha"] logging.empty
  ∧ logging.GetSDKRootTFLoggerOpts ctx2
    = logging.WithMaskMessageStrings ["beta"] logging.empty
  ∧ logging.GetSDKRootTFLoggerOpts standalone.ctx = logging.empty.
Proof. repeat split. Qed.

(** Omission wins over masking on one entry. *)
Example omit_beats_mask :
  written (tfsdklog.Error standalone.omit_and_mask "secret login"
             standalone.login standalone.state).2
  = [].
Proof. reflexivity. Qed.

(** *** Contexts in which no SDK root logger was installed *)

Lemma root_logger_WithValue_ne (ctx : logging.Context) k v :
  k ≠ context.SDKRootLoggerKey →
  logging.GetSDKRootLogger (context.WithValue ctx k v)
  = logging.GetSDKRootLogger ctx.
Proof.
  intros Hne. unfold logging.GetSDKRootLogger, logging.get_logger.
  by rewrite Value_WithValue_ne.
Qed.

(** [SetField], the emit operations and the policy extensions install no
    SDK root logger. *)
Lemma run_installs_no_root_logger op ctx st :
  logging.GetSDKRootLogger ctx = None →
  logging.GetSDKRootLogger (run op ctx st).1 = None.
Proof.
  intros Hnone. destruct op as [key value | e msg fields | x]; cbn.
  - unfold tfsdklog.SetField. by rewrite Hnone.
  - unfold bind. by destruct (emit e ctx msg fields st).
  - rewrite extend_wraps, root_logger_WithValue_ne; done.
Qed.

(** Neither does [NewRootProviderLogger]; it leaves every SDK slot alone. *)
Lemma NewRootProviderLogger_leaves_sdk_slots ctx opts st k :
  sdk_slot k = true →
  context.Value (tfsdklog.NewRootProviderLogger ctx opts st).1 k
  = context.Value ctx k.
Proof.
  intros Hk.
  assert (∃ l p, (tfsdklog.NewRootProviderLogger ctx opts st).1
                 = logging.SetProviderRootLoggerOptions
                     (logging.SetProviderRootLogger ctx l) p) as (l & p & ->).
  { unfold tfsdklog.NewRootProviderLogger.
    destruct (logging.GetSink ctx); cbn zeta; unfold bind;
      repeat match goal with
      | |- context [let (_, _) := ?m in _] => destruct m
      | |- context [if ?b then _ else _] => destruct b
      end; cbn; by eexists _, _. }
  unfold logging.SetProviderRootLoggerOptions, logging.SetProviderRootLogger.
  rewrite !Value_WithValue_ne; [done | by destruct k..].
Qed.

(** And [NewRootSDKLogger] leaves every provider slot alone. *)
Lemma NewRootSDKLogger_leaves_provider_slots ctx opts st k :
  provider_slot k = true →
  context.Value (tfsdklog.NewRootSDKLogger ctx opts st).1 k
  = context.Value ctx k.
Proof.
  intros Hk.
  assert (∃ l p, (tfsdklog.NewRootSDKLogger ctx opts st).1
                 = logging.SetSDKRootLoggerOptions
                     (logging.SetSDKRootLogger ctx l) p) as (l & p & ->).
  { unfold tfsdklog.NewRootSDKLogger.
    destruct (logging.GetSink ctx); cbn zeta; unfold bind;
      repeat match goal with
      | |- context [let (_, _) := ?m in _] => destruct m
      | |- context [if ?b then _ else _] => destruct b
      end; cbn; by eexists _, _. }
  unfold logging.SetSDKRootLoggerOptions, logging.SetSDKRootLogger.
  rewrite !Value_WithValue_ne; [done | by destruct k..].
Qed.

(** * Further properties of [sdk.go] *)

(** ** The root-logger constructors *)

Lemma NewRootLogger_shape role ctx opts st :
  ∃ logger p o,
    NewRootLogger role ctx opts st
    = (context.WithValue
         (context.WithValue ctx (logger_slot role) (logging.ALogger logger))
         (options_slot role) (logging.AnOptions p),
       {| options := <[p := o]> (options st); written := written st |})
    ∧ options st !! p = None.
Proof.
  destruct (logging.GetSink ctx) as [sink|] eqn:Hsink.
  - assert (Hcopy : ∃ o0, hclogutils.LoggerOptionsCopy (logging.GetSinkOptions ctx) st
                          = alloc o0 st).
    { destruct (logging.GetSinkOptions ctx) as [q|]; cbn; [| by eexists].
      unfold bind, load. by eexists. }
    destruct Hcopy as [o0 Hcopy]. pose proof (alloc_fresh o0 st) as Hfresh.
    destruct role; cbn [NewRootLogger logger_slot options_slot];
      unfold tfsdklog.NewRootSDKLogger, tfsdklog.NewRootProviderLogger;
      rewrite Hsink; cbn zeta; unfold bind at 1; rewrite Hcopy;
      generalize (logging.ApplyLoggerOpts opts); intros [n l il off out it];
      cbn [logging.Name logging.Level];
      destruct (decide (n = "")); cbn [logging.set_Name logging.Name logging.Level];
      destruct (decide (l ≠ hclog.NoLevel));
      cbn; rewrite ?alter_insert_eq; eexists _, _, _; (split; [reflexivity | exact Hfresh]).
  - destruct role; cbn [NewRootLogger logger_slot options_slot];
      unfold tfsdklog.NewRootSDKLogger, tfsdklog.NewRootProviderLogger;
      rewrite Hsink; cbn zeta;
      generalize (logging.ApplyLoggerOpts opts); intros [n l il off out it];
      cbn [logging.Name logging.Level];
      destruct (decide (n = "")); cbn [logging.set_Name logging.Name logging.Level];
      destruct (decide (l = hclog.NoLevel));
      unfold bind, alloc, load; cbn [fst snd options written];
      rewrite lookup_insert_eq; cbn [default];
      eexists _, _, _; (split; [reflexivity | apply not_elem_of_dom, is_fresh]).
Qed.


(** X2: a root-logger constructor writes the logger slot and the options
    slot of its own role and no other slot: the policy stores of both roles,
    the host sink with its options, and the logger and options of the other
    role read in the returned context as in the one passed in.  Rules added
    before the root logger is created stay in force. *)
Theorem root_logger_constructor_leaves_other_slots role ctx opts st :
  let result := NewRootLogger role ctx opts st in
  logging.GetSDKRootTFLoggerOpts result.1 = logging.GetSDKRootTFLoggerOpts ctx
  ∧ logging.GetProviderRootTFLoggerOpts result.1
    = logging.GetProviderRootTFLoggerOpts ctx
  ∧ logging.GetSink result.1 = logging.GetSink ctx
  ∧ logging.GetSinkOptions result.1 = logging.GetSinkOptions ctx
  ∧ root_logger (other role) result.1 = root_logger (other role) ctx
  ∧ root_logger_options (other role) result.1
    = root_logger_options (other role) ctx.
Proof.
  cbn zeta.
  destruct (NewRootLogger_shape role ctx opts st) as (logger & p & o & -> & _).
  cbn [fst]. by destruct role.
Qed.

Lemma NewRootLogger_derived role ctx opts st sink :
  logging.GetSink ctx = Some sink →
  let name := resolved_name role (logging.ApplyLoggerOpts opts) in
  let level := logging.Level (logging.ApplyLoggerOpts opts) in
  let recorded :=
    default hclog.zero (logging.GetSinkOptions ctx ≫= λ q, options st !! q) in
  NewRootLogger role ctx opts st
  = (context.WithValue
       (context.WithValue ctx (logger_slot role)
          (logging.ALogger
             (if decide (level ≠ hclog.NoLevel)
              then hclog.SetLevel (hclog.Named sink name) level
              else hclog.Named sink name)))
       (options_slot role) (logging.AnOptions (alloc recorded st).1),
     {| options :=
          <[(alloc recorded st).1 :=
              if decide (level ≠ hclog.NoLevel)
              then hclog.set_Level level (hclog.set_Name name recorded)
              else hclog.set_Name name recorded]> (options st);
        written := written st |}).
Proof.
  intros Hsink. cbn zeta.
  assert (Hcopy : hclogutils.LoggerOptionsCopy (logging.GetSinkOptions ctx) st
                  = alloc (default hclog.zero
                             (logging.GetSinkOptions ctx ≫= λ q, options st !! q)) st).
  { by destruct (logging.GetSinkOptions ctx) as [q|]. }
  unfold resolved_name.
  destruct role; cbn [NewRootLogger logger_slot options_slot default_name];
    unfold tfsdklog.NewRootSDKLogger, tfsdklog.NewRootProviderLogger;
    rewrite Hsink; cbn zeta; unfold bind at 1; rewrite Hcopy;
    generalize (default hclog.zero
                  (logging.GetSinkOptions ctx ≫= λ q, options st !! q));
    intros recorded;
    generalize (logging.ApplyLoggerOpts opts); intros [n l il off out it];
    cbn [logging.Name logging.Level];
    destruct (decide (n = "")); cbn [logging.set_Name logging.Name logging.Level];
    destruct (decide (l ≠ hclog.NoLevel));
    cbn; rewrite ?alter_insert_eq; reflexivity.
Qed.



(** ** The emit operations *)

Lemma emit_spec e ctx logger msg additionalFields st :
  logging.GetSDKRootLogger ctx = Some logger →
  emit e ctx msg additionalFields st
  = let store := logging.GetSDKRootTFLoggerOpts ctx in
    let args := hclogutils.MapsToArgs additionalFields in
    if logging.ShouldOmit store msg (hclog.ImpliedArgs logger) args
    then (tt, st)
    else
      let masked := logging.ApplyMask store msg (hclog.ImpliedArgs logger) args in
      Log logger (level_of e) masked.1.1 masked.2 st.
Proof.
  intros Hlogger. rewrite emit_unfold, Hlogger. cbn zeta.
  destruct (logging.ShouldOmit _ _ _ _) eqn:Homit.
  - by rewrite omitOrMask_omitted.
  - rewrite after_omitOrMask. by rewrite omitOrMask_masked.
Qed.

(** X4: an emit operation writes at most one record, after the records
    already written, and touches no cell of logger options.  The record, if
    any, has the level of the operation called and the name and the output
    target of the SDK root logger of the context, and that logger lets the
    level through. *)
Theorem emit_appends_at_most_one_record e ctx msg additionalFields st :
  let after_ := (emit e ctx msg additionalFields st).2 in
  options after_ = options st
  ∧ ∃ new,
      written after_ = written st ++ new
      ∧ length new ≤ 1
      ∧ ∀ entry, entry ∈ new →
          hclog.entry_level entry = level_of e
          ∧ ∃ logger,
              logging.GetSDKRootLogger ctx = Some logger
              ∧ hclog.entry_name entry = hclog.Name (hclog.settings logger)
              ∧ hclog.entry_output entry = hclog.Output (hclog.settings logger)
              ∧ hclog.enabled logger (level_of e) = true.
Proof.
  cbn zeta. split; [apply emit_keeps_options |].
  destruct (logging.GetSDKRootLogger ctx) as [logger|] eqn:Hlogger.
  - rewrite (emit_spec _ _ _ _ _ _ Hlogger). cbn zeta.
    destruct (logging.ShouldOmit _ _ _ _).
    { exists []. rewrite app_nil_r. split; [done |]. split; [cbn; lia |].
      intros entry Hin. by apply elem_of_nil in Hin. }
    unfold Log. destruct (hclog.enabled logger (level_of e)) eqn:Henabled.
    + eexists [_]. split; [reflexivity |]. split; [cbn; lia |].
      intros entry Hin. apply list_elem_of_singleton in Hin as ->. cbn.
      split; [done |]. by exists logger.
    + exists []. rewrite app_nil_r. split; [done |]. split; [cbn; lia |].
      intros entry Hin. by apply elem_of_nil in Hin.
  - rewrite emit_unfold, Hlogger. exists []. rewrite app_nil_r.
    split; [done |]. split; [cbn; lia |].
    intros entry Hin. by apply elem_of_nil in Hin.
Qed.

(** X5: however [SetField], the emit operations and the policy extensions
    are chained, the records written before the chain stay first and in
    order, the chain adds at most one record per emit operation in it, and
    no cell of logger options is written. *)
Theorem operations_only_append_records ops ctx st :
  let after_ := (run_all ops ctx st).2 in
  written st `prefix_of` written after_
  ∧ length (written after_) ≤ length (written st) + emits ops
  ∧ options after_ = options st.
Proof.
  cbn zeta. revert ctx st. induction ops as [|op ops IH]; intros ctx st.
  - cbn. split; [done |]. split; [lia | done].
  - cbn [run_all]. unfold bind.
    destruct (run op ctx st) as [ctx' st'] eqn:Hrun.
    destruct (IH ctx' st') as (Hpre & Hlen & Hopt).
    assert (Hstep : written st `prefix_of` written st'
                    ∧ length (written st')
                      ≤ length (written st) + emits [op]
                    ∧ options st' = options st).
    { destruct op as [key value | e msg fields | x]; cbn in Hrun.
      - injection Hrun as <- <-. split; [done |]. split; [cbn; lia | done].
      - unfold bind in Hrun.
        pose proof (emit_keeps_options e ctx msg fields st) as Hkeep.
        pose proof (emit_unfold e ctx msg fields) as Hun.
        destruct (emit e ctx msg fields st) as [u st''] eqn:Hemit.
        injection Hrun as <- <-. cbn [snd] in Hkeep.
        split; [| split; [| done]].
        + rewrite Hun in Hemit.
          destruct (logging.GetSDKRootLogger ctx) as [logger|];
            [| by injection Hemit as _ <-].
          cbn zeta in Hemit. destruct (tfsdklog.shouldOmit _);
            [by injection Hemit as _ <- |].
          unfold Log in Hemit. destruct (hclog.enabled _ _);
            injection Hemit as _ <-; [| done].
          by eexists.
        + rewrite Hun in Hemit.
          destruct (logging.GetSDKRootLogger ctx) as [logger|];
            [| injection Hemit as _ <-; cbn; lia].
          cbn zeta in Hemit. destruct (tfsdklog.shouldOmit _);
            [injection Hemit as _ <-; cbn; lia |].
          unfold Log in Hemit. destruct (hclog.enabled _ _);
            injection Hemit as _ <-; cbn; [| lia].
          rewrite length_app. cbn. lia.
      - injection Hrun as <- <-. split; [done |]. split; [cbn; lia | done]. }
    destruct Hstep as (Hpre' & Hlen' & Hopt').
    split; [by etrans |]. split; [| congruence].
    assert (emits (op :: ops) = emits [op] + emits ops) as ->.
    { by destruct op. }
    lia.
Qed.

(** ** Omission *)

Lemma found_spec (span : text → option nat) t :
  scanner.found span t = true ↔ ∃ a rest, t = a ++ rest ∧ is_Some (span rest).
Proof.
  induction t as [|c t IH]; cbn.
  - destruct (span []) eqn:Hspan.
    + split; [| done]. intros _. exists [], []. by rewrite Hspan.
    + split; [done |]. intros (a & rest & Heq & Hsome).
      symmetry in Heq. apply app_eq_nil in Heq as [-> ->].
      rewrite Hspan in Hsome. by destruct Hsome.
  - destruct (span (c :: t)) eqn:Hspan.
    + split; [| done]. intros _. exists [], (c :: t). by rewrite Hspan.
    + rewrite IH. split.
      * intros (a & rest & -> & Hsome). by exists (c :: a), rest.
      * intros ([|c' a] & rest & Heq & Hsome); cbn in Heq.
        -- subst rest. rewrite Hspan in Hsome. by destruct Hsome.
        -- injection Heq as _ ->. by exists a, rest.
Qed.

Lemma literal_span_is_Some old rest :
  is_Some (strings.span old rest) ↔ ∃ b, rest = old ++ b.
Proof.
  unfold strings.span. destruct (strings.has_prefix old rest) eqn:Hpre.
  - apply has_prefix_prefix in Hpre. split; [done | by eexists].
  - split; [by intros [? ?] |]. intros Hex.
    apply has_prefix_prefix in Hex. congruence.
Qed.

Lemma longest_is_Some r rest :
  is_Some (regexp.longest r rest) ↔ ∃ w b, rest = w ++ b ∧ Matches r w.
Proof.
  destruct (regexp.longest r rest) as [n|] eqn:Hlong.
  - split; [| by eexists]. intros _.
    apply longest_Some in Hlong as (_ & [b Hpre] & Hmatch & _). by eexists _, _.
  - split; [by intros [? ?] |]. intros (w & b & -> & Hmatch).
    destruct (longest_None _ _ Hlong w); [by exists b | done].
Qed.

Lemma Contains_spec s substr :
  strings.Contains s substr = true ↔ part_of (chars substr) (chars s).
Proof.
  unfold strings.Contains, part_of. rewrite found_spec. split.
  - intros (a & rest & -> & [b ->]%literal_span_is_Some). by exists a, b.
  - intros (a & b & ->). exists a, (chars substr ++ b). split; [done |].
    apply literal_span_is_Some. by exists b.
Qed.

Lemma MatchString_spec r s :
  regexp.MatchString r s = true ↔ ∃ w, Matches r w ∧ part_of w (chars s).
Proof.
  unfold regexp.MatchString, part_of. rewrite found_spec. split.
  - intros (a & rest & -> & (w & b & -> & Hmatch)%longest_is_Some).
    exists w. split; [done |]. by exists a, b.
  - intros (w & Hmatch & a & b & ->). exists a, (w ++ b). split; [done |].
    apply longest_is_Some. by exists w, b.
Qed.

Lemma ShouldOmit_spec lo msg implied additional :
  logging.ShouldOmit lo msg implied additional = true
  ↔ omission_applies lo msg
      (hclogutils.ArgsToKeys implied ++ hclogutils.ArgsToKeys additional).
Proof.
  unfold logging.ShouldOmit, omission_applies.
  rewrite !orb_true_iff, !existsb_exists. split.
  - intros [[(k & Hin & Hk) | (r & Hin & Hr)] | (s & Hin & Hs)].
    + left. exists k. apply bool_decide_eq_true in Hk.
      split; [done | by apply list_elem_of_In].
    + right. left. apply MatchString_spec in Hr as (w & Hw & Hpart).
      exists r, w. split; [by apply list_elem_of_In | done].
    + right. right. apply Contains_spec in Hs.
      exists s. split; [by apply list_elem_of_In | done].
  - intros [(k & Hk & Hin) | [(r & w & Hin & Hw & Hpart) | (s & Hin & Hs)]].
    + left. left. exists k. split; [by apply list_elem_of_In |].
      by apply bool_decide_eq_true.
    + left. right. exists r. split; [by apply list_elem_of_In |].
      apply MatchString_spec. by exists w.
    + right. exists s. split; [by apply list_elem_of_In |].
      by apply Contains_spec.
Qed.

Lemma ShouldOmit_false lo msg implied additional :
  ¬ omission_applies lo msg
      (hclogutils.ArgsToKeys implied ++ hclogutils.ArgsToKeys additional) →
  logging.ShouldOmit lo msg implied additional = false.
Proof.
  intros Hno. destruct (logging.ShouldOmit _ _ _ _) eqn:Homit; [| done].
  by apply ShouldOmit_spec in Homit.
Qed.

(** X6: on a context with an SDK root logger, an emit operation leaves the
    sink as it was exactly when an omission rule of the store applies to the
    entry (a field key of the logger or of the call is a configured key, a
    part of the message is matched by a configured pattern, or a configured
    literal is a part of the message) or the logger's level filters the
    operation's level out.  In every other case one record is written. *)
Theorem emit_is_silent_exactly_when e ctx logger msg additionalFields st :
  logging.GetSDKRootLogger ctx = Some logger →
  written (emit e ctx msg additionalFields st).2 = written st
  ↔ omission_applies (logging.GetSDKRootTFLoggerOpts ctx) msg
      (entry_keys logger additionalFields)
    ∨ hclog.enabled logger (level_of e) = false.
Proof.
  intros Hlogger. rewrite (emit_spec _ _ _ _ _ _ Hlogger). cbn zeta.
  unfold entry_keys.
  destruct (logging.ShouldOmit _ _ _ _) eqn:Homit.
  - split; [| done]. intros _. left. by apply ShouldOmit_spec.
  - unfold Log. destruct (hclog.enabled logger (level_of e)) eqn:Henabled.
    + cbn. split.
      * intros Heq. apply (f_equal length) in Heq.
        rewrite length_app in Heq. cbn in Heq. lia.
      * intros [Happlies | ?]; [| done].
        apply ShouldOmit_spec in Happlies. congruence.
    + split; [by right | done].
Qed.

Lemma emit_is_silent_exactly_when_witness :
  written (emit EInfo (tfsdklog.OmitLogWithMessageStrings standalone.ctx ["foo"])
             "banana apple foo" [] standalone.state).2
    = written standalone.state
  ↔ omission_applies
      (logging.GetSDKRootTFLoggerOpts
         (tfsdklog.OmitLogWithMessageStrings standalone.ctx ["foo"]))
      "banana apple foo" (entry_keys standalone.logger [])
    ∨ hclog.enabled standalone.logger (level_of EInfo) = false.
Proof.
  exact (emit_is_silent_exactly_when EInfo
           (tfsdklog.OmitLogWithMessageStrings standalone.ctx ["foo"])
           standalone.logger "banana apple foo" [] standalone.state eq_refl).
Defined.

(** X7: once [OmitLogWithMessageStrings] has added the literal [s] on a
    context, every emit operation on the resulting context whose message has
    [s] as a part writes nothing, whatever the fields. *)
Theorem message_with_omitted_literal_is_never_emitted
    e ctx matchingStrings s before_ after_ additionalFields st :
  s ∈ matchingStrings →
  emit e (tfsdklog.OmitLogWithMessageStrings ctx matchingStrings)
    (before_ +:+ s +:+ after_) additionalFields st
  = (tt, st).
Proof.
  intros Hs. rewrite emit_unfold.
  destruct (logging.GetSDKRootLogger _) as [logger|]; [| done].
  cbn zeta. rewrite omitOrMask_omitted; [done |].
  apply ShouldOmit_spec. right. right. exists s. split.
  - cbn. apply elem_of_app. by right.
  - exists (chars before_), (chars after_). by rewrite !chars_app.
Qed.

Lemma message_with_omitted_literal_is_never_emitted_witness :
  emit EInfo (tfsdklog.OmitLogWithMessageStrings standalone.ctx ["foo"; "bar"])
    ("pineapple mango " +:+ "bar" +:+ "") [] standalone.state
  = (tt, standalone.state).
Proof.
  apply (message_with_omitted_literal_is_never_emitted EInfo standalone.ctx
           ["foo"; "bar"] "bar" "pineapple mango " "").
  right. by left.
Defined.

(** X8: once [OmitLogWithMessageRegexes] has added the pattern [r] on a
    context, every emit operation on the resulting context whose message has
    a part that [r] matches writes nothing, whatever the fields. *)
Theorem message_matching_omitted_pattern_is_never_emitted
    e ctx expressions r w msg additionalFields st :
  r ∈ expressions →
  Matches r w →
  part_of w (chars msg) →
  emit e (tfsdklog.OmitLogWithMessageRegexes ctx expressions)
    msg additionalFields st
  = (tt, st).
Proof.
  intros Hr Hw Hpart. rewrite emit_unfold.
  destruct (logging.GetSDKRootLogger _) as [logger|]; [| done].
  cbn zeta. rewrite omitOrMask_omitted; [done |].
  apply ShouldOmit_spec. right. left. exists r, w. split; [| done].
  cbn. apply elem_of_app. by right.
Qed.

Lemma message_matching_omitted_pattern_is_never_emitted_witness :
  emit EInfo
    (tfsdklog.OmitLogWithMessageRegexes standalone.ctx
       [regexp.Alt (regexp.Lit (chars "foo")) (regexp.Lit (chars "bar"))])
    "banana apple foo" [] standalone.state
  = (tt, standalone.state).
Proof.
  apply (message_matching_omitted_pattern_is_never_emitted EInfo standalone.ctx
           [regexp.Alt (regexp.Lit (chars "foo")) (regexp.Lit (chars "bar"))]
           (regexp.Alt (regexp.Lit (chars "foo")) (regexp.Lit (chars "bar")))
           (chars "foo")).
  - by left.
  - apply matches_alt_l.
    apply (matches_cat _ _ [_] [_; _]); [constructor |].
    apply (matches_cat _ _ [_] [_]); [constructor |].
    apply (matches_cat _ _ [_] []); constructor.
  - by exists (chars "banana apple "), [].
Defined.

(** ** Masking *)

Lemma mask_values_MapToArgs keys (m : gmap string hclog.Value) :
  logging.mask_values keys (hclogutils.MapToArgs m) = masked_args keys m.
Proof.
  unfold hclogutils.MapToArgs, masked_args.
  induction (map_to_list m) as [|[k v] l IH]; [done |].
  cbn. by rewrite IH.
Qed.

Lemma ArgsToKeys_masked_args keys (m : gmap string hclog.Value) :
  hclogutils.ArgsToKeys (masked_args keys m) = (map_to_list m).*1.
Proof.
  unfold masked_args.
  induction (map_to_list m) as [|[k v] l IH]; [done |].
  cbn. by rewrite IH.
Qed.

Lemma emit_written e ctx logger msg additionalFields st :
  logging.GetSDKRootLogger ctx = Some logger →
  hclog.enabled logger (level_of e) = true →
  logging.ShouldOmit (logging.GetSDKRootTFLoggerOpts ctx) msg
    (hclog.ImpliedArgs logger) (hclogutils.MapsToArgs additionalFields) = false →
  written (emit e ctx msg additionalFields st).2
  = written st ++
    [ {| hclog.entry_level := level_of e;
         hclog.entry_name := hclog.Name (hclog.settings logger);
         hclog.entry_msg :=
           (logging.ApplyMask (logging.GetSDKRootTFLoggerOpts ctx) msg
              (hclog.ImpliedArgs logger)
              (hclogutils.MapsToArgs additionalFields)).1.1;
         hclog.entry_implied := hclog.ImpliedArgs logger;
         hclog.entry_args :=
           logging.mask_values
             (logging.MaskFieldValuesWithFieldKeys
                (logging.GetSDKRootTFLoggerOpts ctx))
             (hclogutils.MapsToArgs additionalFields);
         hclog.entry_output := hclog.Output (hclog.settings logger) |} ].
Proof.
  intros Hlogger Henabled Homit.
  rewrite (emit_spec _ _ _ _ _ _ Hlogger). cbn zeta. rewrite Homit.
  unfold Log. by rewrite Henabled.
Qed.

(** X9: the record of an emit operation that is neither omitted nor
    filtered by level carries each field key of the call exactly once, in
    the order of the merged field maps, and next to it the value the call
    gave, or the mask token [***] when the key is one that
    [MaskFieldValuesWithFieldKeys] configured.  No key is added or dropped
    by masking. *)
Theorem masked_fields_keep_their_keys e ctx logger msg additionalFields st :
  logging.GetSDKRootLogger ctx = Some logger →
  hclog.enabled logger (level_of e) = true →
  logging.ShouldOmit (logging.GetSDKRootTFLoggerOpts ctx) msg
    (hclog.ImpliedArgs logger) (hclogutils.MapsToArgs additionalFields) = false →
  ∃ entry,
    written (emit e ctx msg additionalFields st).2 = written st ++ [entry]
    ∧ hclog.entry_args entry
      = masked_args
          (logging.MaskFieldValuesWithFieldKeys
             (logging.GetSDKRootTFLoggerOpts ctx))
          (merge additionalFields)
    ∧ hclogutils.ArgsToKeys (hclog.entry_args entry)
      = hclogutils.ArgsToKeys (hclogutils.MapsToArgs additionalFields)
    ∧ NoDup (hclogutils.ArgsToKeys (hclog.entry_args entry))
    ∧ ∀ k, k ∈ hclogutils.ArgsToKeys (hclog.entry_args entry)
           ↔ ∃ m, m ∈ additionalFields ∧ is_Some (m !! k).
Proof.
  intros Hlogger Henabled Homit.
  eexists. split; [by apply emit_written |]. cbn [hclog.entry_args].
  change (hclogutils.MapsToArgs additionalFields)
    with (hclogutils.MapToArgs (merge additionalFields)).
  rewrite mask_values_MapToArgs, ArgsToKeys_masked_args, ArgsToKeys_MapToArgs.
  split; [done |]. split; [done |]. split; [apply NoDup_fst_map_to_list |].
  intros k. rewrite <- ArgsToKeys_MapToArgs. apply MapsToArgs_keys.
Qed.

Lemma masked_fields_keep_their_keys_witness :
  let ctx := tfsdklog.MaskFieldValuesWithFieldKeys standalone.ctx ["foo"; "baz"] in
  let fields : list hclogutils.Fields :=
    [ {[ "foo" := hclog.VString "1"; "bar" := hclog.VString "2" ]} ] in
  ∃ entry,
    written (emit EDebug ctx "req" fields standalone.state).2
      = written standalone.state ++ [entry]
    ∧ hclog.entry_args entry
      = [hclog.VString "foo"; hclog.VString "***";
         hclog.VString "bar"; hclog.VString "2"]
    ∧ hclogutils.ArgsToKeys (hclog.entry_args entry) = ["foo"; "bar"]
    ∧ NoDup (hclogutils.ArgsToKeys (hclog.entry_args entry))
    ∧ ∀ k, k ∈ hclogutils.ArgsToKeys (hclog.entry_args entry)
           ↔ ∃ m, m ∈ fields ∧ is_Some (m !! k).
Proof.
  exact (masked_fields_keep_their_keys EDebug
           (tfsdklog.MaskFieldValuesWithFieldKeys standalone.ctx ["foo"; "baz"])
           standalone.logger "req"
           [ {[ "foo" := hclog.VString "1"; "bar" := hclog.VString "2" ]} ]
           standalone.state eq_refl eq_refl eq_refl).
Defined.

Lemma scan_not_found (span : text → option nat) repl adj t :
  scanner.found span t = false → scanner.scan span repl O adj t = t.
Proof.
  revert adj. induction t as [|c t IH]; intros adj; cbn.
  - by destruct (span []).
  - destruct (span (c :: t)); [done |]. intros Hfound. by rewrite IH.
Qed.

Lemma ReplaceAll_absent m s new :
  ¬ part_of (chars s) (chars m) → strings.ReplaceAll m s new = m.
Proof.
  intros Habsent. unfold strings.ReplaceAll, scanner.replace_all.
  rewrite scan_not_found.
  - apply String.string_of_list_ascii_of_string.
  - destruct (scanner.found _ _) eqn:Hfound; [| done].
    by apply (Contains_spec m s) in Hfound.
Qed.

Lemma ReplaceAllString_absent r m new :
  (∀ w, Matches r w → ¬ part_of w (chars m)) →
  regexp.ReplaceAllString r m new = m.
Proof.
  intros Habsent. unfold regexp.ReplaceAllString, scanner.replace_all.
  rewrite scan_not_found.
  - apply String.string_of_list_ascii_of_string.
  - destruct (scanner.found _ _) eqn:Hfound; [| done].
    apply (MatchString_spec r m) in Hfound as (w & Hw & Hpart).
    by destruct (Habsent w Hw).
Qed.

Lemma ApplyMask_nothing_to_mask lo msg implied additional :
  nothing_to_mask lo msg →
  (logging.ApplyMask lo msg implied additional).1.1 = msg.
Proof.
  intros [Hpatterns Hliterals]. cbn.
  assert (Hp : fold_left (λ m r, regexp.ReplaceAllString r m MaskToken)
                 (logging.MaskMessageRegexes lo) msg = msg).
  { revert Hpatterns. generalize (logging.MaskMessageRegexes lo).
    intros rs. induction rs as [|r rs IH]; intros Hrs; [done |].
    cbn. rewrite ReplaceAllString_absent.
    - apply IH. intros r' w Hin. apply Hrs. by right.
    - intros w. apply Hrs. by left. }
  rewrite Hp. revert Hliterals. generalize (logging.MaskMessageStrings lo).
  intros ss. induction ss as [|s ss IH]; intros Hss; [done |].
  cbn. rewrite ReplaceAll_absent.
  - apply IH. intros s' Hin. apply Hss. by right.
  - apply Hss. by left.
Qed.

(** X10: when no pattern added by [MaskMessageRegexes] matches a part of
    the message and no literal added by [MaskMessageStrings] is a part of
    it, the record of an emit operation that is neither omitted nor filtered
    by level carries the message exactly as the caller passed it. *)
Theorem message_without_occurrence_is_forwarded_as_is
    e ctx logger msg additionalFields st :
  logging.GetSDKRootLogger ctx = Some logger →
  hclog.enabled logger (level_of e) = true →
  logging.ShouldOmit (logging.GetSDKRootTFLoggerOpts ctx) msg
    (hclog.ImpliedArgs logger) (hclogutils.MapsToArgs additionalFields) = false →
  nothing_to_mask (logging.GetSDKRootTFLoggerOpts ctx) msg →
  ∃ entry,
    written (emit e ctx msg additionalFields st).2 = written st ++ [entry]
    ∧ hclog.entry_msg entry = msg.
Proof.
  intros Hlogger Henabled Homit Hnothing.
  eexists. split; [by apply emit_written |]. cbn [hclog.entry_msg].
  by apply ApplyMask_nothing_to_mask.
Qed.

Lemma message_without_occurrence_is_forwarded_as_is_witness :
  let ctx :=
    tfsdklog.MaskMessageRegexes
      (tfsdklog.MaskMessageStrings standalone.ctx ["foo"; "bar"])
      [regexp.Lit (chars "baz")] in
  ∃ entry,
    written (emit EInfo ctx "pineapple mango" [] standalone.state).2
      = written standalone.state ++ [entry]
    ∧ hclog.entry_msg entry = "pineapple mango".
Proof.
  apply (message_without_occurrence_is_forwarded_as_is EInfo _ standalone.logger);
    [reflexivity | reflexivity | reflexivity |].
  split.
  - intros r w Hr Hw Hpart.
    assert (regexp.MatchString r "pineapple mango" = true) as Hmatch.
    { apply MatchString_spec. by exists w. }
    apply list_elem_of_singleton in Hr as ->. discriminate Hmatch.
  - intros s Hs Hpart. apply Contains_spec in Hpart.
    apply elem_of_cons in Hs as [-> | Hs]; [discriminate Hpart |].
    apply list_elem_of_singleton in Hs as ->. discriminate Hpart.
Defined.

(** ** Chains of operations *)

Lemma run_rules op ctx st c :
  rules c (logging.GetSDKRootTFLoggerOpts (run op ctx st).1)
  = rules c (logging.GetSDKRootTFLoggerOpts ctx) ++ added c [op].
Proof.
  destruct op as [key value | e msg fields | x]; cbn [run added].
  - rewrite app_nil_r. cbn. unfold tfsdklog.SetField.
    destruct (logging.GetSDKRootLogger ctx); done.
  - rewrite app_nil_r. unfold bind. by destruct (emit e ctx msg fields st).
  - cbn [ret fst]. rewrite rules_extend, app_nil_r.
    destruct (decide (c = category_of x)); [done | by rewrite app_nil_r].
Qed.

Lemma added_cons c op ops : added c (op :: ops) = added c [op] ++ added c ops.
Proof. destruct op; cbn; [done..|]. by rewrite app_nil_r. Qed.

(** X11: the rules of a context only accumulate.  Along any chain of
    [SetField], emit and policy-extension operations, each of the six rule
    sets of the resulting context is the rule set of the starting context
    followed by the rules that the extensions of that category gave, call
    after call; an extension called with no rule adds nothing, and no
    operation removes or reorders a rule. *)
Theorem rules_accumulate_along_a_chain ops ctx st c :
  rules c (logging.GetSDKRootTFLoggerOpts (run_all ops ctx st).1)
  = rules c (logging.GetSDKRootTFLoggerOpts ctx) ++ added c ops.
Proof.
  revert ctx st. induction ops as [|op ops IH]; intros ctx st.
  - cbn. by rewrite app_nil_r.
  - cbn [run_all]. unfold bind.
    pose proof (run_rules op ctx st c) as Hstep.
    destruct (run op ctx st) as [ctx' st']. cbn [fst] in Hstep.
    by rewrite IH, Hstep, (added_cons c op ops), app_assoc.
Qed.





(** X13: on a context with no SDK root logger, no chain of [SetField], emit
    and policy-extension operations ever writes a record or installs a
    logger: the state after the chain is the state before it. *)
Theorem chain_without_root_logger_is_silent ops ctx st :
  logging.GetSDKRootLogger ctx = None →
  (run_all ops ctx st).2 = st
  ∧ logging.GetSDKRootLogger (run_all ops ctx st).1 = None.
Proof.
  revert ctx st. induction ops as [|op ops IH]; intros ctx st Hnone; [done |].
  cbn [run_all]. unfold bind.
  pose proof (run_installs_no_root_logger op ctx st Hnone) as Hstep.
  assert (Hstate : (run op ctx st).2 = st).
  { destruct op as [key value | e msg fields | x]; cbn; [done | | done].
    unfold bind. rewrite emit_unfold, Hnone. done. }
  destruct (run op ctx st) as [ctx' st']. cbn [fst snd] in *. subst st'.
  by apply IH.
Qed.

Lemma chain_without_root_logger_is_silent_witness :
  let ops :=
    [DoExtend (XOmitLogWithFieldKeys ["password"]);
     DoSetField "user" (hclog.VString "a");
     DoEmit EError "failed" []] in
  (run_all ops context.Background {| options := ∅; written := [] |}).2
  = {| options := ∅; written := [] |}
  ∧ logging.GetSDKRootLogger
      (run_all ops context.Background {| options := ∅; written := [] |}).1
    = None.
Proof.
  exact (chain_without_root_logger_is_silent
           [DoExtend (XOmitLogWithFieldKeys ["password"]);
            DoSetField "user" (hclog.VString "a");
            DoEmit EError "failed" []]
           context.Background {| options := ∅; written := [] |} eq_refl).
Defined.

Lemma ArgsToKeys_app_l a b k :
  k ∈ hclogutils.ArgsToKeys a → k ∈ hclogutils.ArgsToKeys (a ++ b).
Proof.
  remember (length a) as n eqn:Hn. revert a Hn.
  induction n as [n IH] using lt_wf_ind. intros [|x [|y a]] Hn; cbn;
    [by intros ?%elem_of_nil.. |].
  assert (Hrest : k ∈ hclogutils.ArgsToKeys a → k ∈ hclogutils.ArgsToKeys (a ++ b)).
  { apply (IH (length a)); [subst n; cbn; lia | done]. }
  destruct x; try done.
  rewrite !elem_of_cons. intros [-> | Hin]; [by left | right; by apply Hrest].
Qed.

(** The entry with the message [msg] and the fields [additionalFields] is
    suppressed on [ctx]: there is a logger, and an omission rule applies. *)
Lemma suppressed_step op ctx st msg additionalFields :
  (∃ logger, logging.GetSDKRootLogger ctx = Some logger
     ∧ omission_applies (logging.GetSDKRootTFLoggerOpts ctx) msg
         (entry_keys logger additionalFields)) →
  ∃ logger, logging.GetSDKRootLogger (run op ctx st).1 = Some logger
     ∧ omission_applies (logging.GetSDKRootTFLoggerOpts (run op ctx st).1) msg
         (entry_keys logger additionalFields).
Proof.
  intros (logger & Hlogger & Happlies).
  destruct op as [key value | e msg' fields | x]; cbn [run].
  - cbn. unfold tfsdklog.SetField. rewrite Hlogger.
    exists (hclog.With logger key value). split; [done |].
    change (logging.GetSDKRootTFLoggerOpts
              (logging.SetSDKRootLogger ctx (hclog.With logger key value)))
      with (logging.GetSDKRootTFLoggerOpts ctx).
    destruct Happlies as [(k & Hk & Hin) | Hmsg]; [| by right].
    left. exists k. split; [done |]. unfold entry_keys in *.
    apply elem_of_app in Hin as [Hin | Hin]; apply elem_of_app; [left | by right].
    by apply ArgsToKeys_app_l.
  - unfold bind. destruct (emit e ctx msg' fields st). by exists logger.
  - cbn [ret fst]. exists logger. split.
    { rewrite extend_wraps, root_logger_WithValue_ne; done. }
    destruct Happlies as [(k & Hk & Hin) | [(r & w & Hr & Hw) | (s & Hs & Hpart)]].
    + left. exists k. split; [| done].
      destruct x; cbn; try done. apply elem_of_app. by left.
    + right. left. exists r, w. split; [| done].
      destruct x; cbn; try done. apply elem_of_app. by left.
    + right. right. exists s. split; [| done].
      destruct x; cbn; try done. apply elem_of_app. by left.
Qed.

(** X14: suppression is permanent along derivations.  When the store of a
    context omits an entry, every context derived from it by any chain of
    [SetField], emit and policy-extension operations omits the same entry
    too: an emit operation on the derived context, at any level, writes
    nothing for that message and those fields. *)
Theorem omitted_entry_stays_omitted ops ctx st logger msg additionalFields e st' :
  logging.GetSDKRootLogger ctx = Some logger →
  logging.ShouldOmit (logging.GetSDKRootTFLoggerOpts ctx) msg
    (hclog.ImpliedArgs logger) (hclogutils.MapsToArgs additionalFields) = true →
  emit e (run_all ops ctx st).1 msg additionalFields st' = (tt, st').
Proof.
  intros Hlogger Homit.
  assert (Hinv : ∃ logger', logging.GetSDKRootLogger (run_all ops ctx st).1
                            = Some logger'
                 ∧ omission_applies
                     (logging.GetSDKRootTFLoggerOpts (run_all ops ctx st).1) msg
                     (entry_keys logger' additionalFields)).
  { assert (Hstart : ∃ logger', logging.GetSDKRootLogger ctx = Some logger'
              ∧ omission_applies (logging.GetSDKRootTFLoggerOpts ctx) msg
                  (entry_keys logger' additionalFields)).
    { exists logger. split; [done |]. by apply ShouldOmit_spec. }
    clear Hlogger Homit. revert ctx st Hstart.
    induction ops as [|op ops IH]; intros ctx st Hstart; [done |].
    cbn [run_all]. unfold bind.
    pose proof (suppressed_step op ctx st msg additionalFields Hstart) as Hstep.
    destruct (run op ctx st) as [ctx' st'']. by apply IH. }
  destruct Hinv as (logger' & Hlogger' & Happlies).
  rewrite (emit_spec _ _ _ _ _ _ Hlogger'). cbn zeta.
  apply ShouldOmit_spec in Happlies. by rewrite Happlies.
Qed.

Lemma omitted_entry_stays_omitted_witness :
  emit EError
    (run_all
       [DoSetField "user" (hclog.VString "a");
        DoExtend (XMaskFieldValuesWithFieldKeys ["password"]);
        DoExtend (XOmitLogWithMessageStrings ["other"])]
       (tfsdklog.OmitLogWithFieldKeys standalone.ctx ["password"])
       standalone.state).1
    "login" standalone.login standalone.state
  = (tt, standalone.state).
Proof.
  exact (omitted_entry_stays_omitted
           [DoSetField "user" (hclog.VString "a");
            DoExtend (XMaskFieldValuesWithFieldKeys ["password"]);
            DoExtend (XOmitLogWithMessageStrings ["other"])]
           (tfsdklog.OmitLogWithFieldKeys standalone.ctx ["password"])
           standalone.state standalone.logger "login" standalone.login
           EError standalone.state eq_refl eq_refl).
Defined.

(** ** Order of the operations *)

Lemma store_WithValue_ne (ctx : logging.Context) k v :
  k ≠ context.SDKRootTFLoggerOptsKey →
  logging.GetSDKRootTFLoggerOpts (context.WithValue ctx k v)
  = logging.GetSDKRootTFLoggerOpts ctx.
Proof.
  intros Hne. unfold logging.GetSDKRootTFLoggerOpts, logging.get_store.
  by rewrite Value_WithValue_ne.
Qed.

Lemma extend_store_congruence x ctx1 ctx2 :
  logging.GetSDKRootTFLoggerOpts ctx1 = logging.GetSDKRootTFLoggerOpts ctx2 →
  logging.GetSDKRootTFLoggerOpts (extend x ctx1)
  = logging.GetSDKRootTFLoggerOpts (extend x ctx2).
Proof.
  intros Heq. destruct x; cbn;
    unfold tfsdklog.OmitLogWithFieldKeys, tfsdklog.OmitLogWithMessageRegexes,
      tfsdklog.OmitLogWithMessageStrings, tfsdklog.MaskFieldValuesWithFieldKeys,
      tfsdklog.MaskMessageRegexes, tfsdklog.MaskMessageStrings;
    cbn zeta; by rewrite Heq.
Qed.

Lemma emit_depends_on_logger_and_store e ctx1 ctx2 msg additionalFields :
  logging.GetSDKRootLogger ctx1 = logging.GetSDKRootLogger ctx2 →
  logging.GetSDKRootTFLoggerOpts ctx1 = logging.GetSDKRootTFLoggerOpts ctx2 →
  emit e ctx1 msg additionalFields = emit e ctx2 msg additionalFields.
Proof.
  intros Hlogger Hstore. rewrite !emit_unfold, Hlogger.
  destruct (logging.GetSDKRootLogger ctx2); [| done].
  unfold tfsdklog.omitOrMask. by rewrite Hstore.
Qed.

Lemma logger_extend x ctx :
  logging.GetSDKRootLogger (extend x ctx) = logging.GetSDKRootLogger ctx.
Proof. rewrite extend_wraps. by apply root_logger_WithValue_ne. Qed.

Lemma logger_SetField ctx key value :
  logging.GetSDKRootLogger (tfsdklog.SetField ctx key value)
  = (λ logger, hclog.With logger key value) <$> logging.GetSDKRootLogger ctx.
Proof.
  unfold tfsdklog.SetField.
  destruct (logging.GetSDKRootLogger ctx) as [logger|] eqn:Hlogger; cbn; done.
Qed.

Lemma store_SetField ctx key value :
  logging.GetSDKRootTFLoggerOpts (tfsdklog.SetField ctx key value)
  = logging.GetSDKRootTFLoggerOpts ctx.
Proof.
  unfold tfsdklog.SetField. destruct (logging.GetSDKRootLogger ctx); [| done].
  unfold logging.SetSDKRootLogger. by rewrite store_WithValue_ne.
Qed.

(** X15: binding a field and extending the policy can be done in either
    order.  The emit operations behave alike on the context obtained by
    [SetField] after a policy extension and on the one obtained by the same
    policy extension after [SetField]. *)
Theorem SetField_commutes_with_policy_extension
    x key value ctx e msg additionalFields :
  emit e (tfsdklog.SetField (extend x ctx) key value) msg additionalFields
  = emit e (extend x (tfsdklog.SetField ctx key value)) msg additionalFields.
Proof.
  apply emit_depends_on_logger_and_store.
  - by rewrite logger_SetField, !logger_extend, logger_SetField.
  - rewrite store_SetField. apply extend_store_congruence.
    by rewrite store_SetField.
Qed.

(** X16: two policy extensions of different kinds can be called in either
    order: the emit operations behave alike on the two resulting
    contexts. *)
Theorem policy_extensions_of_different_kinds_commute
    x y ctx e msg additionalFields :
  category_of x ≠ category_of y →
  emit e (extend y (extend x ctx)) msg additionalFields
  = emit e (extend x (extend y ctx)) msg additionalFields.
Proof.
  intros Hne. apply emit_depends_on_logger_and_store.
  - by rewrite !logger_extend.
  - destruct x, y; try done; reflexivity.
Qed.

Lemma policy_extensions_of_different_kinds_commute_witness :
  emit EInfo
    (tfsdklog.MaskMessageStrings
       (tfsdklog.OmitLogWithFieldKeys standalone.ctx ["password"]) ["secret"])
    "a secret" []
  = emit EInfo
      (tfsdklog.OmitLogWithFieldKeys
         (tfsdklog.MaskMessageStrings standalone.ctx ["secret"]) ["password"])
      "a secret" [].
Proof.
  apply (policy_extensions_of_different_kinds_commute
           (XOmitLogWithFieldKeys ["password"]) (XMaskMessageStrings ["secret"])).
  discriminate.
Defined.

Lemma root_logger_constructor_store ctx opts st :
  logging.GetSDKRootTFLoggerOpts (tfsdklog.NewRootSDKLogger ctx opts st).1
  = logging.GetSDKRootTFLoggerOpts ctx.
Proof.
  destruct (NewRootLogger_shape SDK ctx opts st) as (logger & p & o & Heq & _).
  cbn [NewRootLogger] in Heq. by rewrite Heq.
Qed.

(** ** A standalone logger at work *)

(** X17: a root SDK logger created with no host sink and no level lets
    every level through.  Each of the five emit operations on the returned
    context, for an entry the store does not omit, writes exactly one
    record after those already written; the record has the level of the
    operation, the name given to the constructor (or the default, sdk), its
    output target, and no permanent field. *)
Theorem standalone_logger_logs_every_level ctx opts st e msg additionalFields :
  logging.GetSink ctx = None →
  logging.Level (logging.ApplyLoggerOpts opts) = hclog.NoLevel →
  logging.ShouldOmit (logging.GetSDKRootTFLoggerOpts ctx) msg []
    (hclogutils.MapsToArgs additionalFields) = false →
  let created := tfsdklog.NewRootSDKLogger ctx opts st in
  ∃ entry,
    written (emit e created.1 msg additionalFields created.2).2
      = written st ++ [entry]
    ∧ hclog.entry_level entry = level_of e
    ∧ hclog.entry_name entry = resolved_name SDK (logging.ApplyLoggerOpts opts)
    ∧ hclog.entry_output entry = logging.Output (logging.ApplyLoggerOpts opts)
    ∧ hclog.entry_implied entry = [].
Proof.
  intros Hsink Hlevel Homit. cbn zeta.
  destruct (NewRootLogger_without_sink SDK ctx opts st Hsink) as (_ & Hlogger & Hst).
  cbn zeta in Hlogger, Hst. cbn [NewRootLogger root_logger] in Hlogger, Hst.
  rewrite Hlevel in Hlogger, Hst. rewrite decide_True in Hlogger, Hst by done.
  pose proof (root_logger_constructor_store ctx opts st) as Hstore.
  assert (Hwritten : written (tfsdklog.NewRootSDKLogger ctx opts st).2 = written st).
  { by rewrite Hst. }
  eexists. split.
  - rewrite (emit_written e _ _ msg additionalFields _ Hlogger);
      [by rewrite Hwritten | by destruct e | by rewrite Hstore].
  - done.
Qed.

Lemma standalone_logger_logs_every_level_witness :
  let created :=
    tfsdklog.NewRootSDKLogger context.Background [logging.set_Name "worker"]
      {| options := ∅; written := [] |} in
  ∃ entry,
    written (emit EError created.1 "disk full" [] created.2).2 = [] ++ [entry]
    ∧ hclog.entry_level entry = hclog.Error
    ∧ hclog.entry_name entry = "worker"
    ∧ hclog.entry_output entry = None
    ∧ hclog.entry_implied entry = [].
Proof.
  exact (standalone_logger_logs_every_level context.Background
           [logging.set_Name "worker"] {| options := ∅; written := [] |}
           EError "disk full" [] eq_refl eq_refl eq_refl).
Defined.

(** X18: the logger a constructor installs is built from the host sink, or
    from scratch when there is none, and never from a logger the context
    already had: its permanently-bound fields are those of the sink, or
    none.  Fields bound by [SetField] before a root logger is created again
    are not carried over. *)
Theorem root_logger_constructor_starts_afresh role ctx opts st :
  ∃ logger,
    root_logger role (NewRootLogger role ctx opts st).1 = Some logger
    ∧ hclog.ImpliedArgs logger
      = match logging.GetSink ctx with
        | Some sink => hclog.ImpliedArgs sink
        | None => []
        end.
Proof.
  destruct (logging.GetSink ctx) as [sink|] eqn:Hsink.
  - rewrite (NewRootLogger_derived _ _ _ _ _ Hsink). cbn [fst].
    eexists. split; [by destruct role |].
    by destruct (decide (_ ≠ _)).
  - destruct (NewRootLogger_without_sink role ctx opts st Hsink) as (_ & Hlogger & _).
    cbn zeta in Hlogger. eexists. split; [exact Hlogger | done].
Qed.

(** ** Bound fields in the records and in the omission check *)

Lemma ArgsToKeys_app_even a b :
  Nat.Even (length a) →
  hclogutils.ArgsToKeys (a ++ b)
  = hclogutils.ArgsToKeys a ++ hclogutils.ArgsToKeys b.
Proof.
  remember (length a) as n eqn:Hn. revert a Hn.
  induction n as [n IH] using lt_wf_ind. intros [|x [|y a]] Hn Heven.
  - done.
  - subst n. destruct Heven as [m Hm]. cbn in Hm. lia.
  - assert (Hrest : hclogutils.ArgsToKeys (a ++ b)
                    = hclogutils.ArgsToKeys a ++ hclogutils.ArgsToKeys b).
    { apply (IH (length a)); [subst n; cbn; lia | done |].
      subst n. destruct Heven as [m Hm]. cbn in Hm. exists (m - 1). lia. }
    cbn. rewrite Hrest. by destruct x.
Qed.

(** X19: a field bound by [SetField] counts in the omission check of every
    later entry.  When the key bound is a key the store omits by, and the
    logger's permanent arguments are key/value pairs, every emit operation
    on the context returned by [SetField] writes nothing, whatever the
    message and the fields of the call. *)
Theorem binding_an_omitted_key_silences_the_logger
    ctx logger key value e msg additionalFields st :
  logging.GetSDKRootLogger ctx = Some logger →
  Nat.Even (length (hclog.ImpliedArgs logger)) →
  key ∈ logging.OmitLogWithFieldKeys (logging.GetSDKRootTFLoggerOpts ctx) →
  emit e (tfsdklog.SetField ctx key value) msg additionalFields st = (tt, st).
Proof.
  intros Hlogger Heven Hkey.
  assert (Hbound : logging.GetSDKRootLogger (tfsdklog.SetField ctx key value)
                   = Some (hclog.With logger key value)).
  { by rewrite logger_SetField, Hlogger. }
  rewrite (emit_spec _ _ _ _ _ _ Hbound). cbn zeta. rewrite store_SetField.
  assert (logging.ShouldOmit (logging.GetSDKRootTFLoggerOpts ctx) msg
            (hclog.ImpliedArgs (hclog.With logger key value))
            (hclogutils.MapsToArgs additionalFields) = true) as ->; [| done].
  apply ShouldOmit_field_key with key; [done |].
  apply elem_of_app. left. cbn.
  rewrite ArgsToKeys_app_even by done. apply elem_of_app. right. by left.
Qed.

Lemma binding_an_omitted_key_silences_the_logger_witness :
  emit EInfo
    (tfsdklog.SetField
       (tfsdklog.OmitLogWithFieldKeys standalone.ctx ["password"])
       "password" (hclog.VString "x"))
    "hello" [] standalone.state
  = (tt, standalone.state).
Proof.
  apply (binding_an_omitted_key_silences_the_logger
           (tfsdklog.OmitLogWithFieldKeys standalone.ctx ["password"])
           standalone.logger "password" (hclog.VString "x")).
  - reflexivity.
  - by exists 0.
  - by left.
Defined.


